(** * The Vulkan execution context of ATen: a shallow embedding

    This development embeds [aten/src/ATen/native/vulkan/api/Context.cpp]
    as state-passing functions over an explicit [World] and proves the
    properties its specification states about context lifetime, flushing,
    waiting and the two-phase dispatch protocol.

    C++ exceptions are modelled by an outcome type; an exception leaves
    every side effect performed before the throw in place, so the monad
    threads the world through both outcomes. *)

From stdpp Require Import base option list gmap strings.
From Stdlib Require Import ZArith NArith Lia.

Local Open Scope Z_scope.

(** ** Native handles and result codes *)

(** Vulkan handles are opaque pointers; [0] is [VK_NULL_HANDLE]. *)
Abbreviation Handle := N (only parsing).
Abbreviation VkInstance := N (only parsing).
Abbreviation VkPhysicalDevice := N (only parsing).
Abbreviation VkDevice := N (only parsing).
Abbreviation VkQueue := N (only parsing).
Abbreviation Ptr := N (only parsing).
Abbreviation ThreadId := nat (only parsing).

Definition nullptr : N := 0%N.

(** [VkResult] is a C enum; [VK_SUCCESS] is zero, errors are negative and
    the remaining status codes are positive. *)
Abbreviation VkResult := Z (only parsing).
Definition VK_SUCCESS : Z := 0.
Definition VK_INCOMPLETE : Z := 5.
Definition VK_ERROR_OUT_OF_HOST_MEMORY : Z := -1.
Definition VK_ERROR_INITIALIZATION_FAILED : Z := -3.
Definition VK_ERROR_DEVICE_LOST : Z := -4.

(** A handle converts to [true] in a boolean context iff it is not null. *)
Definition truthy (h : N) : bool := negb (h =? 0)%N.

(** Object addresses are never null; a pointer is an address or [nullptr]. *)
Definition ptr_of_addr (a : positive) : N := Npos a.

(** ** Exceptions *)

Inductive Error : Type :=
  | VkCheckFailed (result : Z)          (* VK_CHECK on a result other than VK_SUCCESS *)
  | TorchCheckFailed (msg : string)     (* TORCH_CHECK(false, msg...) *)
  | DebugAssertFailed (msg : string)    (* TORCH_INTERNAL_ASSERT_DEBUG_ONLY, debug builds *)
  | ContextInitFailed (cause : Error)
      (* TORCH_CHECK(false, "Vulkan: Failed to initialize context! Error: ", e.what()) *)
  | ContextInitFailedUnknown
      (* TORCH_CHECK(false, "Vulkan: Failed to initialize context! Error: Unknown") *)
  | ForeignException                    (* not derived from std::exception *)
  | NullDereference.                    (* a member call through a null Context* *)

(** [catch (const std::exception&)] matches everything but a foreign throw. *)
Definition is_std_exception (e : Error) : bool :=
  match e with ForeignException => false | _ => true end.

Inductive Outcome (A : Type) : Type :=
  | Ok (a : A)
  | Throw (e : Error).
Arguments Ok {A} a.
Arguments Throw {A} e.

(** ** Collaborators outside this translation unit *)

Record VkExtensionProperties := {
  extensionName : string;
  specVersion : N
}.

Record VkDeviceQueueCreateInfo := {
  dq_queueFamilyIndex : N;
  dq_queueCount : N;
  dq_queuePriorities : list Z   (* the single priority 1.0f, as a fixed-point unit *)
}.

Record VkDeviceCreateInfo := {
  dc_queueCreateInfos : list VkDeviceQueueCreateInfo;
  dc_enabledLayerCount : N;
  dc_enabledExtensionCount : N;
  dc_enabledExtensionNames : list string
}.

(** The native objects the caches and pools create through the driver. *)
Inductive NativeCall : Type :=
  | NcCreateDescriptorSetLayout
  | NcCreateShaderModule
  | NcCreatePipelineLayout
  | NcCreateComputePipelines
  | NcAllocateDescriptorSets
  | NcAllocateCommandBuffers.

(** The Vulkan driver, as far as this file calls it.  Every entry point is
    a parameter: the file only inspects the result code and the handle. *)
Record Driver := {
  vkEnumerateDeviceExtensionProperties_count : N -> Z * N;
  vkEnumerateDeviceExtensionProperties : N -> N -> Z * list VkExtensionProperties;
  vkCreateDevice : N -> VkDeviceCreateInfo -> Z * N;
  vkGetDeviceQueue : N -> N -> N -> N;
  vkQueueWaitIdle : N -> Z;
  vkNative : NativeCall -> Z
}.

(** Modelled from the spec: the adapter object of the runtime collaborator
    (Adapter.h/Runtime.h are not part of this translation unit).  The spec
    gives its interface only: [device_handle()], and the lease/release
    pair [request_queue()]/[return_queue(queue)].  Each call either yields
    a handle or raises. *)
Record Adapter := {
  adapter_device_handle : Outcome N;
  adapter_request_queue : Outcome N
}.

(** Modelled from the spec: the runtime collaborator supplies [instance()],
    [default_adapter_i()] and [get_adapter(index)]. *)
Record Runtime := {
  rt_instance : N;
  rt_default_adapter_i : nat;
  rt_get_adapter : nat -> Adapter
}.

(** Build configuration: [NDEBUG] decides whether debug-only assertions are
    compiled in, [VK_KHR_portability_subset] whether the extension is
    requested. *)
Record Build := {
  debug_build : bool;
  have_portability_subset : bool
}.

(** ** Data model *)

(** [Shader::WorkGroup]: three unsigned 32-bit extents. *)
Record WorkGroup := {
  wg_x : N;
  wg_y : N;
  wg_z : N
}.

(** [Shader::Layout::Signature]: the ordered binding types (values of the
    [VkDescriptorType] enum). *)
Abbreviation Signature := (list N) (only parsing).

(** [Shader::Descriptor] names the shader source or binary to compile; it
    is an opaque cache key here. *)
Abbreviation ShaderDescriptor := N (only parsing).

(** [Shader::Layout::Object]: the descriptor-set layout handle together
    with the signature it was created from. *)
Record ShaderLayout := {
  sl_handle : N;
  sl_signature : list N
}.

(** [Pipeline::Cache::Descriptor], the key of the pipeline cache:
    {pipeline layout, shader module, local work group}. *)
Record PipelineDescriptor := {
  pd_pipeline_layout : N;
  pd_shader_module : N;
  pd_local_work_group : WorkGroup
}.

(** [Pipeline::Object]: what [Command::Buffer::bind] receives. *)
Record PipelineObject := {
  po_handle : N;
  po_layout : N;
  po_local_work_group : WorkGroup
}.

(** [Descriptor::Set]: a set handle, the signature that sizes it, and the
    bindings the caller writes between prologue and epilogue. *)
Record DescriptorSet := {
  ds_handle : N;
  ds_signature : list N;
  ds_bindings : list (N * N)
}.

(** Commands recorded into a [Command::Buffer]. *)
Inductive Cmd : Type :=
  | CmdBindPipeline (p : PipelineObject)
  | CmdBindDescriptorSet (s : DescriptorSet)
  | CmdDispatch (global_work_group : WorkGroup)
  | CmdOther (tag : N).

Abbreviation CommandBuffer := (list Cmd) (only parsing).

Definition wg_key (g : WorkGroup) : N * N * N := (wg_x g, wg_y g, wg_z g).
Definition pd_key (d : PipelineDescriptor) : N * N * (N * N * N) :=
  (pd_pipeline_layout d, pd_shader_module d, wg_key (pd_local_work_group d)).

(** The four caches owned by the context: [shader_.layout.cache],
    [shader_.cache], [pipeline_.layout.cache] and [pipeline_.cache]. *)
Inductive CacheKind : Type :=
  | ShaderLayoutCache
  | ShaderCache
  | PipelineLayoutCache
  | PipelineCache.

Record GPU := {
  gpu_instance : N;
  gpu_adapter_i : nat;
  gpu_device : N;
  gpu_queue : N
}.

Record Shader := {
  shader_gpu : GPU;
  shader_layout_cache : gmap (list N) N;
  shader_cache : gmap N N
}.

Record Pipeline := {
  pipeline_gpu : GPU;
  pipeline_layout_cache : gmap N N;
  pipeline_cache : gmap (N * N * (N * N * N)) N
}.

(** The members of [Context], in initialisation order. *)
Record Context := {
  instance_ : N;
  adapter_i_ : nat;
  device_ : N;
  queue_ : N;
  shader_ : Shader;
  pipeline_ : Pipeline;
  threadcontext_ : GPU
}.

(** Modelled from the spec: the three per-thread pools (Resource.h,
    Descriptor.h and Command.h are not part of this translation unit).
    Each pool is a growable collection of the objects allocated from it;
    the command pool also has the currently open stream, if any. *)
Record ThreadPools := {
  resource_pool : list N;
  descriptor_pool : list DescriptorSet;
  command_pool : list N;
  command_stream : option N
}.

Definition fresh_pools : ThreadPools :=
  {| resource_pool := []; descriptor_pool := [];
     command_pool := []; command_stream := None |}.

Inductive PoolKind : Type :=
  | ResourcePool
  | DescriptorPool
  | CommandPool.

Inductive DeviceType : Type :=
  | kCPU | kCUDA | kMKLDNN | kOPENGL | kOPENCL | kIDEEP | kHIP | kFPGA
  | kMSNPU | kXLA | kVulkan | kMetal | kXPU.

Definition DeviceType_eqb (a b : DeviceType) : bool :=
  match a, b with
  | kCPU, kCPU | kCUDA, kCUDA | kMKLDNN, kMKLDNN | kOPENGL, kOPENGL
  | kOPENCL, kOPENCL | kIDEEP, kIDEEP | kHIP, kHIP | kFPGA, kFPGA
  | kMSNPU, kMSNPU | kXLA, kXLA | kVulkan, kVulkan | kMetal, kMetal
  | kXPU, kXPU => true
  | _, _ => false
  end.

(** [at::Tensor], as far as [wait] looks at it: the device it lives on and
    the identity of its storage. *)
Record Tensor := {
  tensor_device_type : DeviceType;
  tensor_storage : N
}.

(** Observable interactions, in program order. *)
Inductive Event : Type :=
  | EvDeviceHandle (adapter_i : nat)
  | EvRequestQueue (adapter_i : nat)
  | EvReturnQueue (adapter_i : nat) (queue : N)
  | EvNew (p : N)
  | EvDelete (p : N)
  | EvQueueWaitIdle (queue : N) (result : Z)
  | EvPurge (k : PoolKind) (t : nat)
  | EvRetrieve (c : CacheKind) (hit : bool)
  | EvNative (c : NativeCall) (result : Z)
  | EvStream (t : nat)
  | EvHostFuture (storage : N) (command_buffer : N)
  | EvFutureWait (storage : N) (command_buffer : N).

(** [std::unique_ptr<Context>]: empty, or the address and the object it
    owns. *)
Abbreviation unique_ptr := (option (positive * Context)) (only parsing).

(** The whole process state.  [context_static] is the function-local
    static of [context()]: [None] while its initialisation has not
    completed, otherwise the initialised [unique_ptr].  [tls] holds the
    thread-local pools of every thread that has touched them, [buffers]
    the commands recorded into each command buffer.  [leases] are the
    queues handed out by [request_queue] and not yet returned;
    [submitted] is the work outstanding on each queue, tagged with the
    submitting thread. *)
Record World := {
  driver : Driver;
  runtime : Runtime;
  build : Build;
  context_static : option (option (positive * Context));
  tls : gmap nat ThreadPools;
  buffers : gmap N (list Cmd);
  leases : list (nat * N);
  submitted : list (nat * N);
  next_handle : N;
  log : list Event
}.

Definition set_context_static (v : option (option (positive * Context))) (w : World) : World :=
  {| driver := driver w; runtime := runtime w; build := build w;
     context_static := v; tls := tls w; buffers := buffers w;
     leases := leases w; submitted := submitted w;
     next_handle := next_handle w; log := log w |}.

Definition set_tls (v : gmap nat ThreadPools) (w : World) : World :=
  {| driver := driver w; runtime := runtime w; build := build w;
     context_static := context_static w; tls := v; buffers := buffers w;
     leases := leases w; submitted := submitted w;
     next_handle := next_handle w; log := log w |}.

Definition set_buffers (v : gmap N (list Cmd)) (w : World) : World :=
  {| driver := driver w; runtime := runtime w; build := build w;
     context_static := context_static w; tls := tls w; buffers := v;
     leases := leases w; submitted := submitted w;
     next_handle := next_handle w; log := log w |}.

Definition set_leases (v : list (nat * N)) (w : World) : World :=
  {| driver := driver w; runtime := runtime w; build := build w;
     context_static := context_static w; tls := tls w; buffers := buffers w;
     leases := v; submitted := submitted w; next_handle := next_handle w;
     log := log w |}.

Definition set_submitted (v : list (nat * N)) (w : World) : World :=
  {| driver := driver w; runtime := runtime w; build := build w;
     context_static := context_static w; tls := tls w; buffers := buffers w;
     leases := leases w; submitted := v; next_handle := next_handle w;
     log := log w |}.

Definition set_next_handle (v : N) (w : World) : World :=
  {| driver := driver w; runtime := runtime w; build := build w;
     context_static := context_static w; tls := tls w; buffers := buffers w;
     leases := leases w; submitted := submitted w; next_handle := v;
     log := log w |}.

Definition set_log (v : list Event) (w : World) : World :=
  {| driver := driver w; runtime := runtime w; build := build w;
     context_static := context_static w; tls := tls w; buffers := buffers w;
     leases := leases w; submitted := submitted w;
     next_handle := next_handle w; log := v |}.

(** ** The exception/state monad *)

Definition M (A : Type) : Type := World -> Outcome A * World.

Definition ret {A} (a : A) : M A := fun w => (Ok a, w).
Definition throw {A} (e : Error) : M A := fun w => (Throw e, w).
Definition bind {A B} (m : M A) (k : A -> M B) : M B :=
  fun w => match m w with
           | (Ok a, w') => k a w'
           | (Throw e, w') => (Throw e, w')
           end.

#[global] Instance M_ret : MRet M := @ret.
#[global] Instance M_bind : MBind M := fun A B k m => bind m k.

(** [try { m } catch (...) { h }] *)
Definition try_catch {A} (m : M A) (h : Error -> M A) : M A :=
  fun w => match m w with
           | (Ok a, w') => (Ok a, w')
           | (Throw e, w') => h e w'
           end.

Definition get : M World := fun w => (Ok w, w).
Definition modify (f : World -> World) : M unit := fun w => (Ok tt, f w).
Definition emit (e : Event) : M unit := modify (fun w => set_log (log w ++ [e]) w).

(** ** Checking macros (Common.h and c10/util/Exception.h)

    The macros are declared outside this file; they are taken with their
    documented meaning. *)

(** [VK_CHECK(call)] raises unless the call returned [VK_SUCCESS]. *)
Definition VK_CHECK (result : Z) : M unit :=
  if (result =? VK_SUCCESS)%Z then ret tt else throw (VkCheckFailed result).

(** [TORCH_CHECK(cond, msg...)] raises a [c10::Error] unless [cond] holds;
    [TORCH_CHECK_as] names the error by its structure instead of its text. *)
Definition TORCH_CHECK_as (cond : bool) (e : Error) : M unit :=
  if cond then ret tt else throw e.

Definition TORCH_CHECK (cond : bool) (msg : string) : M unit :=
  TORCH_CHECK_as cond (TorchCheckFailed msg).

(** [TORCH_INTERNAL_ASSERT_DEBUG_ONLY(cond, msg)] is [TORCH_INTERNAL_ASSERT]
    in debug builds and compiles to nothing under [NDEBUG]. *)
Definition TORCH_INTERNAL_ASSERT_DEBUG_ONLY (cond : bool) (msg : string) : M unit :=
  w ← get;
  if debug_build (build w) && negb cond
  then throw (DebugAssertFailed msg)
  else ret tt.

(** ** Allocation of fresh handles and addresses *)

Definition fresh_handle : M N :=
  w ← get;
  let h := N.succ (next_handle w) in
  modify (set_next_handle h);;
  ret h.

(** ** The runtime collaborator *)

Fixpoint remove_first (x : nat * N) (l : list (nat * N)) : list (nat * N) :=
  match l with
  | [] => []
  | y :: l' => if decide (x = y) then l' else y :: remove_first x l'
  end.

(** Modelled from the spec: [runtime()->get_adapter(i).device_handle()]. *)
Definition Adapter_device_handle (i : nat) : M N :=
  emit (EvDeviceHandle i);;
  w ← get;
  match adapter_device_handle (rt_get_adapter (runtime w) i) with
  | Ok d => ret d
  | Throw e => throw e
  end.

(** Modelled from the spec: [runtime()->get_adapter(i).request_queue()]
    leases a queue. *)
Definition Adapter_request_queue (i : nat) : M N :=
  emit (EvRequestQueue i);;
  w ← get;
  match adapter_request_queue (rt_get_adapter (runtime w) i) with
  | Ok q => modify (fun w => set_leases ((i, q) :: leases w) w);; ret q
  | Throw e => throw e
  end.

(** Modelled from the spec: [runtime()->get_adapter(i).return_queue(q)]
    gives one lease of [q] back. *)
Definition Adapter_return_queue (i : nat) (q : N) : M unit :=
  emit (EvReturnQueue i q);;
  modify (fun w => set_leases (remove_first (i, q) (leases w)) w).

(** ** [create_device] and [acquire_queue] (anonymous namespace) *)

Definition VK_KHR_PORTABILITY_SUBSET_EXTENSION_NAME : string :=
  "VK_KHR_portability_subset".

Definition requested_device_extensions (b : Build) : list string :=
  if have_portability_subset b
  then [VK_KHR_PORTABILITY_SUBSET_EXTENSION_NAME]
  else [].

(** The inner loop: is some reported extension named like the requested
    one ([strcmp(...) == 0], then [break]). *)
Fixpoint extension_reported (requested : string)
    (props : list VkExtensionProperties) : bool :=
  match props with
  | [] => false
  | e :: props' =>
      if String.eqb requested (extensionName e) then true
      else extension_reported requested props'
  end.

(** The outer loop, pushing each requested extension the device reports. *)
Fixpoint enable_device_extensions (requested : list string)
    (props : list VkExtensionProperties) : list string :=
  match requested with
  | [] => []
  | r :: requested' =>
      if extension_reported r props
      then r :: enable_device_extensions requested' props
      else enable_device_extensions requested' props
  end.

Definition create_device (physical_device : N)
    (compute_queue_family_index : N) : M N :=
  TORCH_INTERNAL_ASSERT_DEBUG_ONLY (truthy physical_device)
    "Invalid Vulkan physical device!";;
  w ← get;
  let device_queue_create_info :=
    {| dq_queueFamilyIndex := compute_queue_family_index;
       dq_queueCount := 1%N;
       dq_queuePriorities := [1] |} in
  let counted :=
    vkEnumerateDeviceExtensionProperties_count (driver w) physical_device in
  VK_CHECK (fst counted);;
  let listed :=
    vkEnumerateDeviceExtensionProperties (driver w) physical_device
      (snd counted) in
  VK_CHECK (fst listed);;
  let enabled_device_extensions :=
    enable_device_extensions (requested_device_extensions (build w))
      (snd listed) in
  let device_create_info :=
    {| dc_queueCreateInfos := [device_queue_create_info];
       dc_enabledLayerCount := 0%N;
       dc_enabledExtensionCount :=
         N.of_nat (length enabled_device_extensions);
       dc_enabledExtensionNames := enabled_device_extensions |} in
  let created :=
    vkCreateDevice (driver w) physical_device device_create_info in
  VK_CHECK (fst created);;
  TORCH_CHECK (truthy (snd created)) "Invalid Vulkan device!";;
  ret (snd created).


(** ** [Context::Context] and [Context::~Context] *)

(** Modelled from the spec: a cache starts empty (Shader.h and Pipeline.h
    are not part of this translation unit). *)
Definition Shader_new (g : GPU) : Shader :=
  {| shader_gpu := g; shader_layout_cache := ∅; shader_cache := ∅ |}.

Definition Pipeline_new (g : GPU) : Pipeline :=
  {| pipeline_gpu := g; pipeline_layout_cache := ∅; pipeline_cache := ∅ |}.

(** The member initialiser list, in order: the device handle and the
    queue come from the adapter as they are; [gpu()] then packs the four
    members already initialised. *)
Definition Context_ctor (instance : N) (adapter_i : nat) : M Context :=
  device ← Adapter_device_handle adapter_i;
  queue ← Adapter_request_queue adapter_i;
  let gpu := {| gpu_instance := instance; gpu_adapter_i := adapter_i;
                gpu_device := device; gpu_queue := queue |} in
  ret {| instance_ := instance;
         adapter_i_ := adapter_i;
         device_ := device;
         queue_ := queue;
         shader_ := Shader_new gpu;
         pipeline_ := Pipeline_new gpu;
         threadcontext_ := gpu |}.

(** The destructor body: the queue goes back to the adapter; no flush. *)
Definition Context_dtor (self : Context) : M unit :=
  Adapter_return_queue (adapter_i_ self) (queue_ self).

(** [new Context(...)]: construct, then take a fresh non-null address. *)
Definition new_Context (instance : N) (adapter_i : nat) : M (positive * Context) :=
  c ← Context_ctor instance adapter_i;
  h ← fresh_handle;
  let a := N.succ_pos h in
  emit (EvNew (ptr_of_addr a));;
  ret (a, c).

(** ** [context()] and [available()] *)

(** [unique_ptr::get]. *)
Definition unique_ptr_get (u : option (positive * Context)) : N :=
  match u with
  | Some (a, _) => ptr_of_addr a
  | None => nullptr
  end.

(** The initialiser lambda of the static: the [try] block returns the new
    object; each handler runs [TORCH_CHECK(false, ...)]; the statement
    after the handlers returns [nullptr]. *)
Definition context_initializer : M (option (positive * Context)) :=
  try_catch
    (w ← get;
     obj ← new_Context (rt_instance (runtime w))
             (rt_default_adapter_i (runtime w));
     ret (Some obj))
    (fun e =>
       (if is_std_exception e
        then TORCH_CHECK_as false (ContextInitFailed e)
        else TORCH_CHECK_as false ContextInitFailedUnknown);;
       ret None).

(** A function-local static is initialised the first time control passes
    through its declaration; when the initialiser exits by an exception
    the variable stays uninitialised and the next call initialises it
    again. *)
Definition context : M N :=
  w ← get;
  u ← match context_static w with
      | Some u => ret u
      | None =>
          u ← context_initializer;
          modify (set_context_static (Some u));;
          ret u
      end;
  TORCH_INTERNAL_ASSERT_DEBUG_ONLY (truthy (unique_ptr_get u))
    "Invalid Vulkan context!";;
  ret (unique_ptr_get u).

Definition available : M bool :=
  p ← context;
  ret (truthy p).

(** Static destruction at process exit: the [unique_ptr], when it was
    initialised and owns an object, runs the destructor and frees it. *)
Definition process_exit : M unit :=
  w ← get;
  match context_static w with
  | Some (Some (a, c)) =>
      Context_dtor c;;
      emit (EvDelete (ptr_of_addr a));;
      modify (set_context_static (Some None))
  | _ => ret tt
  end.

(** ** Thread-local pools *)

(** Modelled from the spec: [resource()], [descriptor()] and [command()]
    (Context.h is not part of this translation unit) reach the pools of
    the calling thread, created on first use. *)
Definition pools_of (w : World) (t : nat) : ThreadPools :=
  default fresh_pools (tls w !! t).

Definition set_pools (t : nat) (p : ThreadPools) (w : World) : World :=
  set_tls (<[t := p]> (tls w)) w.

Definition purge_pools (k : PoolKind) (p : ThreadPools) : ThreadPools :=
  match k with
  | ResourcePool =>
      {| resource_pool := []; descriptor_pool := descriptor_pool p;
         command_pool := command_pool p; command_stream := command_stream p |}
  | DescriptorPool =>
      {| resource_pool := resource_pool p; descriptor_pool := [];
         command_pool := command_pool p; command_stream := command_stream p |}
  | CommandPool =>
      {| resource_pool := resource_pool p; descriptor_pool := descriptor_pool p;
         command_pool := []; command_stream := None |}
  end.

(** Modelled from the spec: [pool.purge()] invalidates every object
    allocated from that pool instance. *)
Definition Pool_purge (k : PoolKind) (t : nat) : M unit :=
  emit (EvPurge k t);;
  modify (fun w => set_pools t (purge_pools k (pools_of w t)) w).

(** ** [Context::flush] *)

(** [vkQueueWaitIdle]: on success every piece of work submitted to the
    queue, from whichever thread, has completed. *)
Definition queue_wait_idle (queue : N) : M Z :=
  w ← get;
  let r := vkQueueWaitIdle (driver w) queue in
  emit (EvQueueWaitIdle queue r);;
  (if (r =? VK_SUCCESS)%Z
   then modify (fun w =>
          set_submitted
            (List.filter (fun s => negb (snd s =? queue)%N) (submitted w)) w)
   else ret tt);;
  ret r.

Definition Context_flush (self : Context) (t : nat) : M unit :=
  r ← queue_wait_idle (queue_ self);
  VK_CHECK r;;
  Pool_purge ResourcePool t;;
  Pool_purge DescriptorPool t;;
  Pool_purge CommandPool t.

(** ** [Context::wait] *)

Definition native (c : NativeCall) : M N :=
  w ← get;
  let r := vkNative (driver w) c in
  emit (EvNative c r);;
  VK_CHECK r;;
  fresh_handle.

(** Modelled from the spec: [Command::Pool::stream()] returns the calling
    thread's currently open command buffer, creating one if none is open. *)
Definition CommandPool_stream (t : nat) : M N :=
  emit (EvStream t);;
  w ← get;
  match command_stream (pools_of w t) with
  | Some b => ret b
  | None =>
      b ← native NcAllocateCommandBuffers;
      modify (fun w =>
        let p := pools_of w t in
        set_pools t
          {| resource_pool := resource_pool p;
             descriptor_pool := descriptor_pool p;
             command_pool := b :: command_pool p;
             command_stream := Some b |} w);;
      ret b
  end.

(** Modelled from the spec: [vTensor::host<const void>(command_buffer)]
    yields a future for a host-visible read-only view of the tensor's
    data, requested through the command buffer it is given, and
    [Future::wait()] blocks until that future resolves, which the spec
    counts as the normal cost of synchronisation and not as an error
    (ops/Tensor.h is not part of this translation unit).  A future is
    known by the storage it reads and the command buffer it was requested
    on; both calls are observed with this identity. *)
Record Future := {
  future_storage : N;
  future_stream : N
}.

Definition vTensor_host (src : Tensor) (command_buffer : N) : M Future :=
  emit (EvHostFuture (tensor_storage src) command_buffer);;
  ret {| future_storage := tensor_storage src;
         future_stream := command_buffer |}.

Definition Future_wait (f : Future) : M unit :=
  emit (EvFutureWait (future_storage f) (future_stream f)).

Definition Context_wait (self : Context) (t : nat) (src : Tensor) : M unit :=
  if DeviceType_eqb kVulkan (tensor_device_type src) then
    command_buffer ← CommandPool_stream t;
    v_src_future ← vTensor_host src command_buffer;
    Future_wait v_src_future
  else ret tt.

(** ** The caches *)

(** The object behind a [Context*]: the one the static owns. *)
Definition static_object (w : World) : option (positive * Context) :=
  match context_static w with
  | Some u => u
  | None => None
  end.

Definition deref (p : N) : M Context :=
  w ← get;
  match static_object w with
  | Some (a, c) => if (ptr_of_addr a =? p)%N then ret c else throw NullDereference
  | None => throw NullDereference
  end.

Definition update_object (f : Context -> Context) : M unit :=
  modify (fun w =>
    match static_object w with
    | Some (a, c) => set_context_static (Some (Some (a, f c))) w
    | None => w
    end).

Definition set_shader (v : Shader) (c : Context) : Context :=
  {| instance_ := instance_ c; adapter_i_ := adapter_i_ c;
     device_ := device_ c; queue_ := queue_ c; shader_ := v;
     pipeline_ := pipeline_ c; threadcontext_ := threadcontext_ c |}.

Definition set_pipeline (v : Pipeline) (c : Context) : Context :=
  {| instance_ := instance_ c; adapter_i_ := adapter_i_ c;
     device_ := device_ c; queue_ := queue_ c; shader_ := shader_ c;
     pipeline_ := v; threadcontext_ := threadcontext_ c |}.

Definition set_shader_layout_cache (m : gmap (list N) N) (c : Context) :=
  set_shader {| shader_gpu := shader_gpu (shader_ c);
                shader_layout_cache := m;
                shader_cache := shader_cache (shader_ c) |} c.

Definition set_shader_cache (m : gmap N N) (c : Context) :=
  set_shader {| shader_gpu := shader_gpu (shader_ c);
                shader_layout_cache := shader_layout_cache (shader_ c);
                shader_cache := m |} c.

Definition set_pipeline_layout_cache (m : gmap N N) (c : Context) :=
  set_pipeline {| pipeline_gpu := pipeline_gpu (pipeline_ c);
                  pipeline_layout_cache := m;
                  pipeline_cache := pipeline_cache (pipeline_ c) |} c.

Definition set_pipeline_cache (m : gmap (N * N * (N * N * N)) N) (c : Context) :=
  set_pipeline {| pipeline_gpu := pipeline_gpu (pipeline_ c);
                  pipeline_layout_cache := pipeline_layout_cache (pipeline_ c);
                  pipeline_cache := m |} c.

(** Modelled from the spec: [cache.retrieve(signature)] returns the cached
    native object for the signature, constructing and inserting it on
    first request; when construction fails nothing is inserted. *)
Definition Cache_retrieve `{Countable K} (kind : CacheKind) (call : NativeCall)
    (read : Context -> gmap K N) (write : gmap K N -> Context -> Context)
    (p : N) (key : K) : M N :=
  c ← deref p;
  match read c !! key with
  | Some h => emit (EvRetrieve kind true);; ret h
  | None =>
      emit (EvRetrieve kind false);;
      h ← native call;
      update_object (fun c => write (<[key := h]> (read c)) c);;
      ret h
  end.

Definition shader_layout_cache_retrieve (p : N) (signature : list N)
    : M ShaderLayout :=
  h ← Cache_retrieve ShaderLayoutCache NcCreateDescriptorSetLayout
        (fun c => shader_layout_cache (shader_ c)) set_shader_layout_cache
        p signature;
  ret {| sl_handle := h; sl_signature := signature |}.

Definition shader_cache_retrieve (p : N) (descriptor : N) : M N :=
  Cache_retrieve ShaderCache NcCreateShaderModule
    (fun c => shader_cache (shader_ c)) set_shader_cache p descriptor.

Definition pipeline_layout_cache_retrieve (p : N) (descriptor_set_layout : N)
    : M N :=
  Cache_retrieve PipelineLayoutCache NcCreatePipelineLayout
    (fun c => pipeline_layout_cache (pipeline_ c)) set_pipeline_layout_cache
    p descriptor_set_layout.

Definition pipeline_cache_retrieve (p : N) (d : PipelineDescriptor)
    : M PipelineObject :=
  h ← Cache_retrieve PipelineCache NcCreateComputePipelines
        (fun c => pipeline_cache (pipeline_ c)) set_pipeline_cache
        p (pd_key d);
  ret {| po_handle := h; po_layout := pd_pipeline_layout d;
         po_local_work_group := pd_local_work_group d |}.

(** ** Command buffers and the descriptor pool *)

Definition buffer_contents (w : World) (b : N) : list Cmd :=
  default [] (buffers w !! b).

(** Modelled from the spec: a command stream is an append-only sequence of
    recorded commands (Command.h is not part of this translation unit). *)
Definition record (b : N) (c : Cmd) : M unit :=
  modify (fun w => set_buffers (<[b := buffer_contents w b ++ [c]]> (buffers w)) w).

Definition Buffer_bind_pipeline (b : N) (p : PipelineObject) : M unit :=
  record b (CmdBindPipeline p).

Definition Buffer_bind_set (b : N) (s : DescriptorSet) : M unit :=
  record b (CmdBindDescriptorSet s).

Definition Buffer_dispatch (b : N) (global_work_group : WorkGroup) : M unit :=
  record b (CmdDispatch global_work_group).

(** Modelled from the spec: [descriptor.pool.allocate(layout)] returns a
    fresh descriptor set, sized to the layout, from the calling thread's
    pool. *)
Definition DescriptorPool_allocate (t : nat) (layout : ShaderLayout)
    : M DescriptorSet :=
  h ← native NcAllocateDescriptorSets;
  let s := {| ds_handle := h; ds_signature := sl_signature layout;
              ds_bindings := [] |} in
  modify (fun w =>
    let p := pools_of w t in
    set_pools t
      {| resource_pool := resource_pool p;
         descriptor_pool := s :: descriptor_pool p;
         command_pool := command_pool p;
         command_stream := command_stream p |} w);;
  ret s.

(** ** The dispatch protocol *)

(** The members of a braced initialiser list are evaluated in the order
    they are written: the pipeline layout is retrieved before the shader
    module, and both before the pipeline. *)
Definition dispatch_prologue (t : nat) (command_buffer : N)
    (shader_layout_signature : list N) (shader_descriptor : N)
    (local_work_group_size : WorkGroup) : M DescriptorSet :=
  context ← context;
  shader_layout ← shader_layout_cache_retrieve context shader_layout_signature;
  pipeline_layout ← pipeline_layout_cache_retrieve context (sl_handle shader_layout);
  shader_module ← shader_cache_retrieve context shader_descriptor;
  pipeline ← pipeline_cache_retrieve context
               {| pd_pipeline_layout := pipeline_layout;
                  pd_shader_module := shader_module;
                  pd_local_work_group := local_work_group_size |};
  Buffer_bind_pipeline command_buffer pipeline;;
  DescriptorPool_allocate t shader_layout.

Definition dispatch_epilogue (command_buffer : N)
    (descriptor_set : DescriptorSet) (global_work_group : WorkGroup) : M unit :=
  Buffer_bind_set command_buffer descriptor_set;;
  Buffer_dispatch command_buffer global_work_group.

(** ** Client programs

    A client is a sequence of calls into the public interface; a call
    that raises is caught by the client, which then goes on. *)

Inductive Call : Type :=
  | CallContext
  | CallAvailable
  | CallFlush (t : nat)
  | CallWait (t : nat) (src : Tensor)
  | CallPrologue (t : nat) (command_buffer : N) (signature : list N)
      (shader_descriptor : N) (local_work_group_size : WorkGroup)
  | CallEpilogue (command_buffer : N) (descriptor_set : DescriptorSet)
      (global_work_group : WorkGroup).

Inductive Value : Type :=
  | VPtr (p : N)
  | VBool (b : bool)
  | VUnit
  | VSet (s : DescriptorSet).

Definition exec (c : Call) : M Value :=
  match c with
  | CallContext => p ← context; ret (VPtr p)
  | CallAvailable => b ← available; ret (VBool b)
  | CallFlush t =>
      p ← context; self ← deref p; Context_flush self t;; ret VUnit
  | CallWait t src =>
      p ← context; self ← deref p; Context_wait self t src;; ret VUnit
  | CallPrologue t b sig sd lwg =>
      s ← dispatch_prologue t b sig sd lwg; ret (VSet s)
  | CallEpilogue b s g => dispatch_epilogue b s g;; ret VUnit
  end.

Fixpoint run (cs : list Call) (w : World) : list (Outcome Value) * World :=
  match cs with
  | [] => ([], w)
  | c :: cs' =>
      let r := exec c w in
      let rs := run cs' (snd r) in
      (fst r :: fst rs, snd rs)
  end.

(** Projections of the log. *)
Definition news (l : list Event) : list N :=
  omap (fun e => match e with EvNew p => Some p | _ => None end) l.

Definition deletes (l : list Event) : list N :=
  omap (fun e => match e with EvDelete p => Some p | _ => None end) l.

Definition retrievals (l : list Event) : list CacheKind :=
  omap (fun e => match e with EvRetrieve c _ => Some c | _ => None end) l.

Definition purges (l : list Event) : list (PoolKind * nat) :=
  omap (fun e => match e with EvPurge k t => Some (k, t) | _ => None end) l.

Definition returned_queues (l : list Event) : list (nat * N) :=
  omap (fun e => match e with EvReturnQueue i q => Some (i, q) | _ => None end) l.

Definition is_dispatch (c : Cmd) : bool :=
  match c with CmdDispatch _ => true | _ => false end.

(** The events a step appended to the log. *)
Definition new_events (w w' : World) : list Event :=
  drop (length (log w)) (log w').

(** The state of the static: uninitialised, initialised empty, or owning
    the object at some address. *)
Definition slot (w : World) : option (option positive) :=
  match context_static w with
  | None => None
  | Some None => Some None
  | Some (Some (a, _)) => Some (Some a)
  end.

(** A process that has not entered [context()] yet. *)
Definition initial (w : World) : Prop :=
  context_static w = None /\ log w = [].

(** ** Concrete worlds used by the examples *)

Definition ok_driver : Driver :=
  {| vkEnumerateDeviceExtensionProperties_count := fun _ => (VK_SUCCESS, 1%N);
     vkEnumerateDeviceExtensionProperties := fun _ _ =>
       (VK_SUCCESS,
        [ {| extensionName := "VK_KHR_portability_subset"; specVersion := 1%N |} ]);
     vkCreateDevice := fun _ _ => (VK_SUCCESS, 7%N);
     vkGetDeviceQueue := fun _ _ _ => 9%N;
     vkQueueWaitIdle := fun _ => VK_SUCCESS;
     vkNative := fun _ => VK_SUCCESS |}.

Definition lost_driver : Driver :=
  {| vkEnumerateDeviceExtensionProperties_count := fun _ => (VK_SUCCESS, 0%N);
     vkEnumerateDeviceExtensionProperties := fun _ _ => (VK_SUCCESS, []);
     vkCreateDevice := fun _ _ => (VK_ERROR_INITIALIZATION_FAILED, 0%N);
     vkGetDeviceQueue := fun _ _ _ => 0%N;
     vkQueueWaitIdle := fun _ => VK_ERROR_DEVICE_LOST;
     vkNative := fun _ => VK_ERROR_OUT_OF_HOST_MEMORY |}.

Definition good_adapter : Adapter :=
  {| adapter_device_handle := Ok 7%N; adapter_request_queue := Ok 9%N |}.

(** An adapter whose device could not be created. *)
Definition failing_adapter : Adapter :=
  {| adapter_device_handle := Throw (VkCheckFailed VK_ERROR_INITIALIZATION_FAILED);
     adapter_request_queue := Ok 9%N |}.

Definition runtime_with (a : Adapter) : Runtime :=
  {| rt_instance := 1%N; rt_default_adapter_i := 0%nat;
     rt_get_adapter := fun _ => a |}.

Definition release_build : Build :=
  {| debug_build := false; have_portability_subset := true |}.

Definition boot (d : Driver) (a : Adapter) : World :=
  {| driver := d; runtime := runtime_with a; build := release_build;
     context_static := None; tls := ∅; buffers := ∅; leases := [];
     submitted := []; next_handle := 0%N; log := [] |}.

Definition sample_context : Context :=
  let g := {| gpu_instance := 1%N; gpu_adapter_i := 0%nat;
              gpu_device := 7%N; gpu_queue := 9%N |} in
  {| instance_ := 1%N; adapter_i_ := 0%nat; device_ := 7%N; queue_ := 9%N;
     shader_ := Shader_new g; pipeline_ := Pipeline_new g;
     threadcontext_ := g |}.

Definition sample_set : DescriptorSet :=
  {| ds_handle := 40%N; ds_signature := [7%N; 7%N]; ds_bindings := [] |}.

(** Two threads with live pool entries and work outstanding on queue 9. *)
Definition busy_world : World :=
  {| driver := ok_driver; runtime := runtime_with good_adapter;
     build := release_build;
     context_static := Some (Some (5%positive, sample_context));
     tls := <[1%nat := {| resource_pool := [11%N]; descriptor_pool := [sample_set];
                          command_pool := [12%N]; command_stream := Some 12%N |}]>
            (<[2%nat := {| resource_pool := [21%N]; descriptor_pool := [];
                           command_pool := [22%N]; command_stream := Some 22%N |}]> ∅);
     buffers := ∅; leases := [(0%nat, 9%N)];
     submitted := [(1%nat, 9%N); (2%nat, 9%N)];
     next_handle := 50%N;
     log := [EvDeviceHandle 0; EvRequestQueue 0; EvNew 5%N] |}.

Definition cpu_tensor : Tensor :=
  {| tensor_device_type := kCPU; tensor_storage := 3%N |}.

Definition vulkan_tensor : Tensor :=
  {| tensor_device_type := kVulkan; tensor_storage := 4%N |}.

Definition wg (x y z : N) : WorkGroup := {| wg_x := x; wg_y := y; wg_z := z |}.

(** ** Observations used by the lifetime properties

    [lifecycle] is what the lifetime claims observe: the state of the
    static and the objects created and destroyed so far.  A computation is
    [quiet] when it leaves all of it alone. *)

Definition lifecycle (w : World) : option (option positive) * list N * list N :=
  (slot w, news (log w), deletes (log w)).

Definition quiet {A} (m : M A) : Prop :=
  forall w, lifecycle (snd (m w)) = lifecycle w.

Definition lifecycle_event (e : Event) : bool :=
  match e with EvNew _ | EvDelete _ => true | _ => false end.

(** What [dispatch_prologue] does once it holds the context pointer. *)
Definition prologue_body (t : nat) (command_buffer : N)
    (shader_layout_signature : list N) (shader_descriptor : N)
    (local_work_group_size : WorkGroup) (context : N) : M DescriptorSet :=
  shader_layout ← shader_layout_cache_retrieve context shader_layout_signature;
  pipeline_layout ← pipeline_layout_cache_retrieve context (sl_handle shader_layout);
  shader_module ← shader_cache_retrieve context shader_descriptor;
  pipeline ← pipeline_cache_retrieve context
               {| pd_pipeline_layout := pipeline_layout;
                  pd_shader_module := shader_module;
                  pd_local_work_group := local_work_group_size |};
  Buffer_bind_pipeline command_buffer pipeline;;
  DescriptorPool_allocate t shader_layout.

(** The error the handlers of the initialiser raise for a caught [e]. *)
Definition fatal (e : Error) : Error :=
  if is_std_exception e then ContextInitFailed e else ContextInitFailedUnknown.

(** What the constructor raises for the default adapter of a runtime, if
    it raises. *)
Definition construction_failure (r : Runtime) : option Error :=
  let a := rt_get_adapter r (rt_default_adapter_i r) in
  match adapter_device_handle a with
  | Throw e => Some e
  | Ok _ =>
      match adapter_request_queue a with
      | Throw e => Some e
      | Ok _ => None
      end
  end.

(** Construction attempts: each one begins by asking the adapter for its
    device handle. *)
Definition attempts (l : list Event) : nat :=
  length (List.filter (fun e => match e with EvDeviceHandle _ => true | _ => false end) l).

Definition uses_context (c : Call) : bool :=
  match c with CallEpilogue _ _ _ => false | _ => true end.

(** The invariant of a process: nothing has been destroyed, and the
    objects created so far are exactly the one the static owns, if it
    owns one. *)
Definition Inv (w : World) : Prop :=
  deletes (log w) = [] /\
  match context_static w with
  | None => news (log w) = []
  | Some None => False
  | Some (Some (a, _)) => news (log w) = [ptr_of_addr a]
  end.

(** [p] points to the object the static owns. *)
Definition owner (w : World) (p : N) : Prop :=
  exists a, slot w = Some (Some a) /\ p = ptr_of_addr a.

(** What a cache lookup, a recorded command or a context lookup leaves
    alone. *)
Definition frame (w w' : World) : Prop :=
  driver w' = driver w /\ tls w' = tls w /\ buffers w' = buffers w /\
  (next_handle w <= next_handle w')%N.

(** The pools of thread [t] after one more descriptor set was allocated. *)
Definition with_set (s : DescriptorSet) (p : ThreadPools) : ThreadPools :=
  {| resource_pool := resource_pool p;
     descriptor_pool := s :: descriptor_pool p;
     command_pool := command_pool p;
     command_stream := command_stream p |}.

(** A driver on which everything succeeds except the creation of a
    pipeline layout. *)
Definition no_pipeline_layout_driver : Driver :=
  {| vkEnumerateDeviceExtensionProperties_count := fun _ => (VK_SUCCESS, 0%N);
     vkEnumerateDeviceExtensionProperties := fun _ _ => (VK_SUCCESS, []);
     vkCreateDevice := fun _ _ => (VK_SUCCESS, 7%N);
     vkGetDeviceQueue := fun _ _ _ => 9%N;
     vkQueueWaitIdle := fun _ => VK_SUCCESS;
     vkNative := fun c =>
       match c with
       | NcCreatePipelineLayout => VK_ERROR_OUT_OF_HOST_MEMORY
       | _ => VK_SUCCESS
       end |}.

(** The caller writing its resources into the set it got from the
    prologue. *)
Definition bind_resources (s : DescriptorSet) (bindings : list (N * N)) : DescriptorSet :=
  {| ds_handle := ds_handle s; ds_signature := ds_signature s;
     ds_bindings := bindings |}.

(** The commands recorded into buffer [b] between two worlds. *)
Definition recorded (w w' : World) (b : N) : list Cmd :=
  drop (length (buffer_contents w b)) (buffer_contents w' b).

(** ** Further observations and client programs *)

(** A computation preserves an observation of the world when the world it
    leaves shows the same value, whether it returns or raises. *)
Definition preserves {A B} (f : World -> B) (m : M A) : Prop :=
  forall w, f (snd (m w)) = f w.

(** The parts of the world no operation of this file writes. *)
Definition env (w : World) : Driver * Runtime * Build :=
  (driver w, runtime w, build w).

(** Who holds which queue: the outstanding leases, and the adapter and
    queue the singleton was constructed with. *)
Definition tenancy (w : World)
    : list (nat * N) * option (option (positive * nat * N)) :=
  (leases w,
   match context_static w with
   | None => None
   | Some None => Some None
   | Some (Some (a, c)) => Some (Some (a, adapter_i_ c, queue_ c))
   end).

Definition natives (l : list Event) : list NativeCall :=
  omap (fun e => match e with EvNative c _ => Some c | _ => None end) l.

Definition idle_waits (l : list Event) : list N :=
  omap (fun e => match e with EvQueueWaitIdle q _ => Some q | _ => None end) l.

(** One compute job as the operators submit it: the shader and its
    layout, the work-group shapes, and the resources to bind. *)
Record Job := {
  job_signature : list N;
  job_shader : N;
  job_local : WorkGroup;
  job_bindings : list (N * N);
  job_global : WorkGroup
}.

(** The calling pattern of the dispatch protocol: prologue, the caller's
    bindings written into the returned set, epilogue. *)
Definition dispatch_job (t : nat) (command_buffer : N) (j : Job) : M unit :=
  s ← dispatch_prologue t command_buffer (job_signature j) (job_shader j)
        (job_local j);
  dispatch_epilogue command_buffer (bind_resources s (job_bindings j))
    (job_global j).

Fixpoint dispatch_jobs (t : nat) (command_buffer : N) (js : list Job) : M unit :=
  match js with
  | [] => ret tt
  | j :: js' =>
      dispatch_job t command_buffer j;;
      dispatch_jobs t command_buffer js'
  end.

Definition debug_build_config : Build :=
  {| debug_build := true; have_portability_subset := false |}.

(** [boot] with assertions compiled in. *)
Definition debug_boot (d : Driver) (a : Adapter) : World :=
  {| driver := d; runtime := runtime_with a; build := debug_build_config;
     context_static := None; tls := ∅; buffers := ∅; leases := [];
     submitted := []; next_handle := 0%N; log := [] |}.

(** A driver on which everything succeeds except the allocation of
    descriptor sets. *)
Definition no_descriptor_set_driver : Driver :=
  {| vkEnumerateDeviceExtensionProperties_count := fun _ => (VK_SUCCESS, 0%N);
     vkEnumerateDeviceExtensionProperties := fun _ _ => (VK_SUCCESS, []);
     vkCreateDevice := fun _ _ => (VK_SUCCESS, 7%N);
     vkGetDeviceQueue := fun _ _ _ => 9%N;
     vkQueueWaitIdle := fun _ => VK_SUCCESS;
     vkNative := fun c =>
       match c with
       | NcAllocateDescriptorSets => VK_ERROR_OUT_OF_HOST_MEMORY
       | _ => VK_SUCCESS
       end |}.

(** A driver whose extension enumeration is cut short. *)
Definition incomplete_driver : Driver :=
  {| vkEnumerateDeviceExtensionProperties_count := fun _ => (VK_SUCCESS, 1%N);
     vkEnumerateDeviceExtensionProperties := fun _ _ => (VK_INCOMPLETE, []);
     vkCreateDevice := fun _ _ => (VK_SUCCESS, 7%N);
     vkGetDeviceQueue := fun _ _ _ => 9%N;
     vkQueueWaitIdle := fun _ => VK_SUCCESS;
     vkNative := fun _ => VK_SUCCESS |}.

Definition sample_job (g : WorkGroup) : Job :=
  {| job_signature := [7%N; 7%N]; job_shader := 99%N; job_local := wg 4 4 1;
     job_bindings := [(0%N, 11%N)]; job_global := g |}.

(** The leases are balanced against [base] when the only lease above it
    is the one the singleton holds. *)
Definition balanced (base : list (nat * N))
    (t : list (nat * N) * option (option (positive * nat * N))) : Prop :=
  match snd t with
  | None => fst t = base
  | Some None => False
  | Some (Some (_, i, q)) => fst t = (i, q) :: base
  end.

(** The three commands one job leaves in the stream. *)
Definition job_commands (j : Job) (cmds : list Cmd) : Prop :=
  exists pipe set,
    cmds = [CmdBindPipeline pipe; CmdBindDescriptorSet set;
            CmdDispatch (job_global j)] /\
    po_local_work_group pipe = job_local j /\
    ds_signature set = job_signature j /\
    ds_bindings set = job_bindings j.

(** The create-info [create_device] hands to [vkCreateDevice], and the
    driver's answer to it. *)
Definition device_create_info (pd idx : N) (w : World) : VkDeviceCreateInfo :=
  let counted := vkEnumerateDeviceExtensionProperties_count (driver w) pd in
  let listed := vkEnumerateDeviceExtensionProperties (driver w) pd (snd counted) in
  let names :=
    enable_device_extensions (requested_device_extensions (build w)) (snd listed) in
  {| dc_queueCreateInfos :=
       [ {| dq_queueFamilyIndex := idx; dq_queueCount := 1%N;
            dq_queuePriorities := [1] |} ];
     dc_enabledLayerCount := 0%N;
     dc_enabledExtensionCount := N.of_nat (length names);
     dc_enabledExtensionNames := names |}.




(** * Properties *)

Ltac run_m :=
  unfold mbind, M_bind, bind, mret, M_ret, ret, throw, try_catch,
    get, modify, emit in *.

Lemma new_events_app (w w' : World) (evs : list Event) :
  log w' = log w ++ evs -> new_events w w' = evs.
Proof. intros E. unfold new_events. rewrite E. apply drop_app_length. Qed.

Lemma DeviceType_eqb_eq (a b : DeviceType) :
  DeviceType_eqb a b = true <-> a = b.
Proof. destruct a, b; simpl; split; intros E; try reflexivity; discriminate E. Qed.

(** ** Flush *)

Lemma flush_success (self : Context) (t : nat) (w : World) :
  vkQueueWaitIdle (driver w) (queue_ self) = VK_SUCCESS ->
  fst (Context_flush self t w) = Ok tt /\
  log (snd (Context_flush self t w)) =
    log w ++ [EvQueueWaitIdle (queue_ self) VK_SUCCESS; EvPurge ResourcePool t;
              EvPurge DescriptorPool t; EvPurge CommandPool t] /\
  submitted (snd (Context_flush self t w)) =
    List.filter (fun s => negb (snd s =? queue_ self)%N) (submitted w) /\
  tls (snd (Context_flush self t w)) =
    <[t := purge_pools CommandPool (purge_pools DescriptorPool
             (purge_pools ResourcePool (pools_of w t)))]> (tls w).
Proof.
  intros H.
  unfold Context_flush, queue_wait_idle, Pool_purge, VK_CHECK. run_m.
  simpl. rewrite H. simpl. rewrite <- !app_assoc. simpl.
  repeat split.
  unfold set_pools, pools_of; simpl.
  rewrite !lookup_insert_eq; simpl. rewrite !insert_insert_eq. reflexivity.
Qed.

Lemma flush_failure (self : Context) (t : nat) (w : World) :
  vkQueueWaitIdle (driver w) (queue_ self) <> VK_SUCCESS ->
  fst (Context_flush self t w)
    = Throw (VkCheckFailed (vkQueueWaitIdle (driver w) (queue_ self))) /\
  log (snd (Context_flush self t w)) =
    log w ++ [EvQueueWaitIdle (queue_ self)
                (vkQueueWaitIdle (driver w) (queue_ self))] /\
  tls (snd (Context_flush self t w)) = tls w /\
  submitted (snd (Context_flush self t w)) = submitted w.
Proof.
  intros H. apply Z.eqb_neq in H.
  unfold Context_flush, queue_wait_idle, Pool_purge, VK_CHECK. run_m.
  simpl. rewrite H. simpl. rewrite H. simpl. repeat split.
Qed.

(** C2. Whatever the queue answers, [flush] first waits for the queue to be
    idle; each of the three purges comes after a wait that returned
    [VK_SUCCESS], at which point no work is outstanding on the queue; and
    when the wait does not return successfully nothing is purged and the
    failure is raised. *)
Theorem flush_purges_only_after_idle (self : Context) (t : nat) (w : World) :
  let res := vkQueueWaitIdle (driver w) (queue_ self) in
  let r := Context_flush self t w in
  (forall pre k t' post,
      new_events w (snd r) = pre ++ EvPurge k t' :: post ->
      EvQueueWaitIdle (queue_ self) VK_SUCCESS ∈ pre) /\
  (res = VK_SUCCESS ->
      fst r = Ok tt /\
      new_events w (snd r) =
        [EvQueueWaitIdle (queue_ self) VK_SUCCESS; EvPurge ResourcePool t;
         EvPurge DescriptorPool t; EvPurge CommandPool t] /\
      Forall (fun s => snd s <> queue_ self) (submitted (snd r))) /\
  (res <> VK_SUCCESS ->
      fst r = Throw (VkCheckFailed res) /\
      purges (new_events w (snd r)) = [] /\
      tls (snd r) = tls w).
Proof.
  intros res r. subst r.
  destruct (Z.eq_dec res VK_SUCCESS) as [Hs | Hf].
  - destruct (flush_success self t w Hs) as (Hr & Hl & Hq & _).
    pose proof (new_events_app _ _ _ Hl) as Hn.
    split; [| split].
    + intros pre k t' post E. rewrite Hn in E.
      destruct pre as [| e pre]; [discriminate E |].
      injection E as <- E. apply list_elem_of_here.
    + intros _. repeat split; try assumption.
      rewrite Hq. apply Forall_forall. intros s Hin.
      apply list_elem_of_In, filter_In in Hin. destruct Hin as [_ Hne].
      apply negb_true_iff, N.eqb_neq in Hne. exact Hne.
    + intros Hc. contradiction.
  - destruct (flush_failure self t w Hf) as (Hr & Hl & Ht & _).
    pose proof (new_events_app _ _ _ Hl) as Hn.
    split; [| split].
    + intros pre k t' post E. rewrite Hn in E.
      destruct pre as [| e [| e' pre]]; discriminate E.
    + intros Hc. contradiction.
    + intros _. rewrite Hn. repeat split; assumption.
Qed.

Lemma flush_purges_only_after_idle_witness :
  vkQueueWaitIdle (driver busy_world) (queue_ sample_context) = VK_SUCCESS /\
  fst (Context_flush sample_context 1 busy_world) = Ok tt /\
  submitted (snd (Context_flush sample_context 1 busy_world)) = [].
Proof.
  split; [reflexivity |].
  destruct (flush_purges_only_after_idle sample_context 1 busy_world)
    as (_ & Hs & _).
  split; [apply Hs; reflexivity | reflexivity].
Defined.

(** C10. [flush] called on thread [t] purges the three pools of [t] and of
    no other thread: the thread-local pools of every other thread are what
    they were, although a successful idle wait has retired the work that
    every thread submitted to the queue. *)
Theorem flush_leaves_other_threads_pools (self : Context) (t t' : nat) (w : World) :
  t' <> t ->
  let r := Context_flush self t w in
  tls (snd r) !! t' = tls w !! t' /\
  (forall k u, (k, u) ∈ purges (new_events w (snd r)) -> u = t) /\
  (fst r = Ok tt ->
     purges (new_events w (snd r)) =
       [(ResourcePool, t); (DescriptorPool, t); (CommandPool, t)] /\
     pools_of (snd r) t = fresh_pools /\
     forall u, (u, queue_ self) ∉ submitted (snd r)).
Proof.
  intros Hne r. subst r.
  destruct (Z.eq_dec (vkQueueWaitIdle (driver w) (queue_ self)) VK_SUCCESS)
    as [Hs | Hf].
  - destruct (flush_success self t w Hs) as (Hr & Hl & Hq & Ht).
    rewrite (new_events_app _ _ _ Hl). split; [| split].
    + rewrite Ht. apply lookup_insert_ne. congruence.
    + simpl. intros k u Hin.
      repeat (apply elem_of_cons in Hin; destruct Hin as [Hin | Hin];
              [congruence |]).
      apply elem_of_nil in Hin. contradiction.
    + intros _. split; [reflexivity | split].
      * unfold pools_of. rewrite Ht, lookup_insert_eq. reflexivity.
      * intros u Hin. rewrite Hq in Hin. apply list_elem_of_In in Hin.
        apply filter_In in Hin. destruct Hin as [_ Hb]. simpl in Hb.
        rewrite N.eqb_refl in Hb. discriminate Hb.
  - destruct (flush_failure self t w Hf) as (Hr & Hl & Ht & _).
    rewrite (new_events_app _ _ _ Hl). split; [| split].
    + rewrite Ht. reflexivity.
    + simpl. intros k u Hin. apply elem_of_nil in Hin. contradiction.
    + intros Hok. rewrite Hr in Hok. discriminate Hok.
Qed.

Lemma flush_leaves_other_threads_pools_witness :
  tls (snd (Context_flush sample_context 1 busy_world)) !! 2%nat
    = tls busy_world !! 2%nat /\
  pools_of (snd (Context_flush sample_context 1 busy_world)) 1 = fresh_pools.
Proof.
  assert (Hne : 2%nat <> 1%nat) by lia.
  destruct (flush_leaves_other_threads_pools sample_context 1 2 busy_world Hne)
    as (Hother & _ & Hown).
  split; [exact Hother |].
  apply Hown. reflexivity.
Defined.

(** ** Wait *)

(** C5. On a tensor that does not live on a Vulkan device [wait] returns
    at once and leaves the whole world as it was: no command stream is
    obtained, no pool is touched, nothing reaches the queue and nothing
    is logged. *)
Theorem wait_not_device_resident_is_noop
    (self : Context) (t : nat) (src : Tensor) (w : World) :
  tensor_device_type src <> kVulkan ->
  Context_wait self t src w = (Ok tt, w).
Proof.
  intros Hne. unfold Context_wait.
  destruct (DeviceType_eqb kVulkan (tensor_device_type src)) eqn:E.
  - apply DeviceType_eqb_eq in E. congruence.
  - reflexivity.
Qed.

Lemma wait_not_device_resident_is_noop_witness :
  Context_wait sample_context 1 cpu_tensor busy_world = (Ok tt, busy_world).
Proof.
  apply (wait_not_device_resident_is_noop sample_context 1 cpu_tensor busy_world).
  simpl. discriminate.
Defined.

Lemma stream_open (t : nat) (b : N) (w : World) :
  command_stream (pools_of w t) = Some b ->
  CommandPool_stream t w = (Ok b, set_log (log w ++ [EvStream t]) w).
Proof.
  intros H. unfold CommandPool_stream. run_m. simpl.
  change (pools_of (set_log (log w ++ [EvStream t]) w) t) with (pools_of w t).
  rewrite H. reflexivity.
Qed.

Lemma stream_created (t : nat) (w : World) :
  command_stream (pools_of w t) = None ->
  vkNative (driver w) NcAllocateCommandBuffers = VK_SUCCESS ->
  let b := N.succ (next_handle w) in
  fst (CommandPool_stream t w) = Ok b /\
  log (snd (CommandPool_stream t w)) =
    log w ++ [EvStream t; EvNative NcAllocateCommandBuffers VK_SUCCESS] /\
  command_stream (pools_of (snd (CommandPool_stream t w)) t) = Some b.
Proof.
  intros H Hd b. subst b.
  unfold CommandPool_stream, native, fresh_handle, VK_CHECK. run_m. simpl.
  change (pools_of (set_log (log w ++ [EvStream t]) w) t) with (pools_of w t).
  rewrite H. simpl. rewrite Hd. simpl. rewrite <- app_assoc. simpl.
  repeat split.
  unfold pools_of, set_pools. simpl. rewrite lookup_insert_eq. reflexivity.
Qed.

(** C6. On a tensor that lives on a Vulkan device [wait] first obtains the
    calling thread's current command stream: the one that is open, or,
    when none is open, one it has the pool allocate.  It then requests
    the host-visible read-only future of the tensor's data on exactly
    that stream, and returns only after waiting on exactly that future.
    These are its interactions, in this order, and the wait on the future
    is the last of them. *)
Theorem wait_device_resident_blocks_on_future
    (self : Context) (t : nat) (src : Tensor) (w : World) :
  tensor_device_type src = kVulkan ->
  (is_Some (command_stream (pools_of w t)) \/
   vkNative (driver w) NcAllocateCommandBuffers = VK_SUCCESS) ->
  exists (b : N) (opening : list Event),
    fst (CommandPool_stream t w) = Ok b /\
    fst (Context_wait self t src w) = Ok tt /\
    new_events w (snd (Context_wait self t src w)) =
      EvStream t :: opening ++
        [EvHostFuture (tensor_storage src) b;
         EvFutureWait (tensor_storage src) b] /\
    (forall b0, command_stream (pools_of w t) = Some b0 ->
                b = b0 /\ opening = []) /\
    (command_stream (pools_of w t) = None ->
       b = N.succ (next_handle w) /\
       opening = [EvNative NcAllocateCommandBuffers VK_SUCCESS]).
Proof.
  intros Hv Hs. unfold Context_wait. rewrite Hv. simpl.
  destruct (command_stream (pools_of w t)) as [b |] eqn:Eb.
  - exists b, []. unfold vTensor_host, Future_wait. run_m.
    rewrite (stream_open t b w Eb). simpl.
    split; [reflexivity | split; [reflexivity | split; [| split]]].
    + apply new_events_app. simpl. rewrite <- !app_assoc. reflexivity.
    + intros b0 E. injection E as <-. auto.
    + intros E. discriminate E.
  - destruct Hs as [[b Hb] | Hd]; [discriminate Hb |].
    destruct (stream_created t w Eb Hd) as (Hr & Hl & Hc).
    exists (N.succ (next_handle w)),
      [EvNative NcAllocateCommandBuffers VK_SUCCESS].
    unfold vTensor_host, Future_wait. run_m.
    destruct (CommandPool_stream t w) as [o w1] eqn:E. simpl in *. subst o.
    simpl.
    split; [reflexivity | split; [reflexivity | split; [| split]]].
    + apply new_events_app. simpl. rewrite Hl, <- !app_assoc. reflexivity.
    + intros b0 E0. discriminate E0.
    + intros _. auto.
Qed.

Lemma wait_device_resident_blocks_on_future_witness :
  exists (b : N) (opening : list Event),
    fst (CommandPool_stream 1 busy_world) = Ok b /\
    fst (Context_wait sample_context 1 vulkan_tensor busy_world) = Ok tt /\
    new_events busy_world
      (snd (Context_wait sample_context 1 vulkan_tensor busy_world)) =
      EvStream 1 :: opening ++ [EvHostFuture 4%N b; EvFutureWait 4%N b] /\
    (forall b0, command_stream (pools_of busy_world 1) = Some b0 ->
                b = b0 /\ opening = []) /\
    (command_stream (pools_of busy_world 1) = None ->
       b = N.succ (next_handle busy_world) /\
       opening = [EvNative NcAllocateCommandBuffers VK_SUCCESS]).
Proof.
  apply (wait_device_resident_blocks_on_future sample_context 1
           vulkan_tensor busy_world).
  - reflexivity.
  - left. exists 12%N. reflexivity.
Defined.

(** When no stream is open and the driver cannot allocate one, [wait]
    raises before any future is requested. *)
Lemma wait_stream_failure (self : Context) (t : nat) (src : Tensor) (w : World) :
  tensor_device_type src = kVulkan ->
  command_stream (pools_of w t) = None ->
  vkNative (driver w) NcAllocateCommandBuffers <> VK_SUCCESS ->
  fst (Context_wait self t src w) =
    Throw (VkCheckFailed (vkNative (driver w) NcAllocateCommandBuffers)).
Proof.
  intros Hv Eb Hd. apply Z.eqb_neq in Hd.
  unfold Context_wait, CommandPool_stream, native, VK_CHECK. rewrite Hv.
  run_m. simpl.
  change (pools_of (set_log (log w ++ [EvStream t]) w) t) with (pools_of w t).
  rewrite Eb. simpl. rewrite Hd. reflexivity.
Qed.

(** ** Construction and destruction *)

Lemma ctor_ok (instance : N) (i : nat) (d q : N) (w : World) :
  adapter_device_handle (rt_get_adapter (runtime w) i) = Ok d ->
  adapter_request_queue (rt_get_adapter (runtime w) i) = Ok q ->
  exists c w1,
    Context_ctor instance i w = (Ok c, w1) /\
    instance_ c = instance /\ adapter_i_ c = i /\
    device_ c = d /\ queue_ c = q /\
    leases w1 = (i, q) :: leases w /\
    log w1 = log w ++ [EvDeviceHandle i; EvRequestQueue i] /\
    context_static w1 = context_static w /\
    next_handle w1 = next_handle w.
Proof.
  intros Hd Hq.
  unfold Context_ctor, Adapter_device_handle, Adapter_request_queue. run_m.
  simpl. rewrite Hd. simpl. rewrite Hq. simpl.
  eexists _, _. split; [reflexivity |]. simpl.
  rewrite <- app_assoc. repeat split.
Qed.

Lemma ctor_device_raises (instance : N) (i : nat) (e : Error) (w : World) :
  adapter_device_handle (rt_get_adapter (runtime w) i) = Throw e ->
  Context_ctor instance i w =
    (Throw e, set_log (log w ++ [EvDeviceHandle i]) w).
Proof.
  intros Hd. unfold Context_ctor, Adapter_device_handle. run_m.
  simpl. rewrite Hd. reflexivity.
Qed.

Lemma ctor_queue_raises (instance : N) (i : nat) (d : N) (e : Error) (w : World) :
  adapter_device_handle (rt_get_adapter (runtime w) i) = Ok d ->
  adapter_request_queue (rt_get_adapter (runtime w) i) = Throw e ->
  Context_ctor instance i w =
    (Throw e, set_log (log w ++ [EvDeviceHandle i; EvRequestQueue i]) w).
Proof.
  intros Hd Hq.
  unfold Context_ctor, Adapter_device_handle, Adapter_request_queue. run_m.
  simpl. rewrite Hd. simpl. rewrite Hq. simpl. rewrite <- app_assoc. reflexivity.
Qed.

Lemma remove_first_head (x : nat * N) (l : list (nat * N)) :
  remove_first x (x :: l) = l.
Proof. simpl. destruct (decide (x = x)); [reflexivity | contradiction]. Qed.

(** C8. The destructor hands the queue stored at construction, which is
    the queue [request_queue] leased to the constructor, back to the same
    adapter through exactly one [return_queue] call, and does nothing
    else: no idle wait, no purge, the thread-local pools, the command
    buffers and the outstanding work are untouched, and no handle is
    destroyed.  Run right after construction it leaves the adapter's
    leases as they were before. *)
Theorem destructor_returns_the_leased_queue
    (instance : N) (i : nat) (w : World) (c : Context) (w1 : World) :
  Context_ctor instance i w = (Ok c, w1) ->
  adapter_request_queue (rt_get_adapter (runtime w) i) = Ok (queue_ c) /\
  leases w1 = (i, queue_ c) :: leases w /\
  (forall w2 : World,
     let r := Context_dtor c w2 in
     fst r = Ok tt /\
     new_events w2 (snd r) = [EvReturnQueue i (queue_ c)] /\
     returned_queues (new_events w2 (snd r)) = [(i, queue_ c)] /\
     purges (new_events w2 (snd r)) = [] /\
     leases (snd r) = remove_first (i, queue_ c) (leases w2) /\
     tls (snd r) = tls w2 /\ buffers (snd r) = buffers w2 /\
     submitted (snd r) = submitted w2 /\
     context_static (snd r) = context_static w2) /\
  leases (snd (Context_dtor c w1)) = leases w.
Proof.
  intros Hc.
  destruct (adapter_device_handle (rt_get_adapter (runtime w) i)) as [d | e] eqn:Hd;
    [| rewrite (ctor_device_raises instance i e w Hd) in Hc; discriminate Hc].
  destruct (adapter_request_queue (rt_get_adapter (runtime w) i)) as [q | e] eqn:Hq;
    [| rewrite (ctor_queue_raises instance i d e w Hd Hq) in Hc; discriminate Hc].
  destruct (ctor_ok instance i d q w Hd Hq)
    as (c' & w1' & Hc' & _ & Hi & _ & Hqc & Hl & _).
  rewrite Hc' in Hc. injection Hc as <- <-.
  assert (Hdtor : forall w2, Context_dtor c' w2 =
            (Ok tt, set_leases (remove_first (i, q) (leases w2))
                      (set_log (log w2 ++ [EvReturnQueue i q]) w2))).
  { intros w2. unfold Context_dtor, Adapter_return_queue. run_m.
    rewrite Hi, Hqc. reflexivity. }
  rewrite Hqc. split; [reflexivity | split; [exact Hl | split]].
  - intros w2 r. subst r. rewrite Hdtor. simpl.
    assert (Hn : new_events w2
              (set_leases (remove_first (i, q) (leases w2))
                 (set_log (log w2 ++ [EvReturnQueue i q]) w2))
              = [EvReturnQueue i q]) by (apply new_events_app; reflexivity).
    rewrite Hn. repeat split.
  - rewrite Hdtor. simpl. rewrite Hl. apply remove_first_head.
Qed.

Lemma destructor_returns_the_leased_queue_witness :
  exists c w1,
    Context_ctor 1%N 0 (boot ok_driver good_adapter) = (Ok c, w1) /\
    queue_ c = 9%N /\
    new_events w1 (snd (Context_dtor c w1)) = [EvReturnQueue 0 9%N] /\
    leases (snd (Context_dtor c w1)) = [].
Proof.
  destruct (Context_ctor 1%N 0 (boot ok_driver good_adapter)) as [o w1] eqn:E.
  vm_compute in E. injection E as <- <-.
  eexists _, _. split; [reflexivity |].
  match goal with
  | |- context [Context_dtor ?c ?w1] =>
      destruct (destructor_returns_the_leased_queue 1%N 0
                  (boot ok_driver good_adapter) c w1 eq_refl)
        as (_ & _ & Hd & Hl)
  end.
  split; [reflexivity |].
  split; [apply Hd | exact Hl].
Defined.

(** ** Device creation and queue acquisition *)

Lemma truthy_nonnull (h : N) : truthy h = true <-> h <> 0%N.
Proof.
  unfold truthy. rewrite negb_true_iff. apply N.eqb_neq.
Qed.

(** ** Lifetime of the singleton *)

Lemma news_app (l1 l2 : list Event) : news (l1 ++ l2) = news l1 ++ news l2.
Proof. apply omap_app. Qed.

Lemma deletes_app (l1 l2 : list Event) : deletes (l1 ++ l2) = deletes l1 ++ deletes l2.
Proof. apply omap_app. Qed.

Lemma quiet_ret {A} (a : A) : quiet (ret a).
Proof. intros w. reflexivity. Qed.

Lemma quiet_mret {A} (a : A) : quiet (mret a).
Proof. intros w. reflexivity. Qed.

Lemma quiet_throw {A} (e : Error) : quiet (@throw A e).
Proof. intros w. reflexivity. Qed.

Lemma quiet_get : quiet get.
Proof. intros w. reflexivity. Qed.

Lemma quiet_bind {A B} (m : M A) (k : A -> M B) :
  quiet m -> (forall a, quiet (k a)) -> quiet (m ≫= k).
Proof.
  intros Hm Hk w. run_m. specialize (Hm w).
  destruct (m w) as [[a | e] w1]; simpl in *.
  - rewrite (Hk a w1). exact Hm.
  - exact Hm.
Qed.

Lemma quiet_modify (f : World -> World) :
  (forall w, lifecycle (f w) = lifecycle w) -> quiet (modify f).
Proof. intros H w. apply H. Qed.

Lemma quiet_emit (e : Event) : lifecycle_event e = false -> quiet (emit e).
Proof.
  intros H w. unfold emit, modify, lifecycle. simpl.
  rewrite news_app, deletes_app.
  destruct e; simpl in *; try discriminate H; rewrite !app_nil_r; reflexivity.
Qed.

Create HintDb quiet.
#[local] Hint Resolve quiet_ret quiet_mret quiet_throw quiet_get : quiet.

Ltac quiet_step :=
  match goal with
  | |- quiet (mbind _ _) => apply quiet_bind; [| intros ?]
  | |- quiet (emit _) => apply quiet_emit; reflexivity
  | |- quiet (modify _) => apply quiet_modify; intros ?; reflexivity
  | |- quiet (if ?b then _ else _) => destruct b
  | |- quiet (match ?x with _ => _ end) => destruct x
  | |- quiet _ => solve [eauto with quiet]
  end.

Ltac quiet_solve := repeat quiet_step.

Lemma quiet_VK_CHECK (r : Z) : quiet (VK_CHECK r).
Proof. unfold VK_CHECK. quiet_solve. Qed.

Lemma quiet_TORCH_CHECK_as (b : bool) (e : Error) : quiet (TORCH_CHECK_as b e).
Proof. unfold TORCH_CHECK_as. quiet_solve. Qed.

Lemma quiet_debug_assert (b : bool) (msg : string) :
  quiet (TORCH_INTERNAL_ASSERT_DEBUG_ONLY b msg).
Proof. unfold TORCH_INTERNAL_ASSERT_DEBUG_ONLY. quiet_solve. Qed.

Lemma quiet_fresh_handle : quiet fresh_handle.
Proof. unfold fresh_handle. quiet_solve. Qed.

#[local] Hint Resolve quiet_VK_CHECK quiet_TORCH_CHECK_as quiet_debug_assert
  quiet_fresh_handle : quiet.

Lemma quiet_native (c : NativeCall) : quiet (native c).
Proof. unfold native. quiet_solve. Qed.

Lemma quiet_Pool_purge (k : PoolKind) (t : nat) : quiet (Pool_purge k t).
Proof. unfold Pool_purge. quiet_solve. Qed.

Lemma quiet_queue_wait_idle (q : N) : quiet (queue_wait_idle q).
Proof. unfold queue_wait_idle. quiet_solve. Qed.

#[local] Hint Resolve quiet_native quiet_Pool_purge quiet_queue_wait_idle : quiet.

Lemma quiet_Context_flush (self : Context) (t : nat) : quiet (Context_flush self t).
Proof. unfold Context_flush. quiet_solve. Qed.

Lemma quiet_CommandPool_stream (t : nat) : quiet (CommandPool_stream t).
Proof. unfold CommandPool_stream. quiet_solve. Qed.

Lemma quiet_vTensor_host (src : Tensor) (b : N) : quiet (vTensor_host src b).
Proof. unfold vTensor_host. quiet_solve. Qed.

Lemma quiet_Future_wait (f : Future) : quiet (Future_wait f).
Proof. unfold Future_wait. quiet_solve. Qed.

#[local] Hint Resolve quiet_Context_flush quiet_CommandPool_stream
  quiet_vTensor_host quiet_Future_wait : quiet.

Lemma quiet_Context_wait (self : Context) (t : nat) (src : Tensor) :
  quiet (Context_wait self t src).
Proof. unfold Context_wait. quiet_solve. Qed.

Lemma quiet_deref (p : N) : quiet (deref p).
Proof. unfold deref. quiet_solve. Qed.

Lemma quiet_update_object (f : Context -> Context) : quiet (update_object f).
Proof.
  unfold update_object. apply quiet_modify. intros w.
  unfold static_object, lifecycle, slot.
  destruct (context_static w) as [[[a c] |] |] eqn:E; simpl; rewrite ?E;
    reflexivity.
Qed.

#[local] Hint Resolve quiet_Context_wait quiet_deref quiet_update_object : quiet.

Lemma quiet_Cache_retrieve `{Countable K} (kind : CacheKind) (call : NativeCall)
    (read : Context -> gmap K N) (write : gmap K N -> Context -> Context)
    (p : N) (key : K) :
  quiet (Cache_retrieve kind call read write p key).
Proof. unfold Cache_retrieve. quiet_solve. Qed.

#[local] Hint Resolve @quiet_Cache_retrieve : quiet.

Lemma quiet_record (b : N) (c : Cmd) : quiet (record b c).
Proof. unfold record. quiet_solve. Qed.

#[local] Hint Resolve quiet_record : quiet.

Lemma quiet_DescriptorPool_allocate (t : nat) (layout : ShaderLayout) :
  quiet (DescriptorPool_allocate t layout).
Proof. unfold DescriptorPool_allocate. quiet_solve. Qed.

Lemma quiet_dispatch_epilogue (b : N) (s : DescriptorSet) (g : WorkGroup) :
  quiet (dispatch_epilogue b s g).
Proof.
  unfold dispatch_epilogue, Buffer_bind_set, Buffer_dispatch. quiet_solve.
Qed.

#[local] Hint Resolve quiet_DescriptorPool_allocate quiet_dispatch_epilogue : quiet.

Lemma dispatch_prologue_unfold t b sig sd lwg :
  dispatch_prologue t b sig sd lwg = (p ← context; prologue_body t b sig sd lwg p).
Proof. reflexivity. Qed.

Lemma quiet_prologue_body t b sig sd lwg p :
  quiet (prologue_body t b sig sd lwg p).
Proof.
  unfold prologue_body, shader_layout_cache_retrieve, shader_cache_retrieve,
    pipeline_layout_cache_retrieve, pipeline_cache_retrieve,
    Buffer_bind_pipeline.
  quiet_solve.
Qed.

Lemma context_initialised (w : World) (a : positive) (c : Context) :
  context_static w = Some (Some (a, c)) ->
  context w = (Ok (ptr_of_addr a), w).
Proof.
  intros H. unfold context, TORCH_INTERNAL_ASSERT_DEBUG_ONLY. run_m.
  rewrite H. simpl. rewrite andb_false_r. reflexivity.
Qed.

Lemma context_empty (w : World) :
  context_static w = Some None ->
  snd (context w) = w /\
  (fst (context w) = Ok nullptr \/ exists e, fst (context w) = Throw e).
Proof.
  intros H. unfold context, TORCH_INTERNAL_ASSERT_DEBUG_ONLY. run_m.
  rewrite H. simpl. destruct (debug_build (build w)); simpl; eauto.
Qed.

Lemma context_fails (w : World) (e : Error) :
  context_static w = None ->
  construction_failure (runtime w) = Some e ->
  exists evs,
    context w = (Throw (fatal e), set_log (log w ++ evs) w) /\
    attempts evs = 1%nat /\ news evs = [] /\ deletes evs = [].
Proof.
  intros Hs Hf. unfold construction_failure in Hf.
  set (i := rt_default_adapter_i (runtime w)) in *.
  assert (Hc : exists evs,
             Context_ctor (rt_instance (runtime w)) i w
               = (Throw e, set_log (log w ++ evs) w) /\
             attempts evs = 1%nat /\ news evs = [] /\ deletes evs = []).
  { destruct (adapter_device_handle (rt_get_adapter (runtime w) i))
      as [d | e'] eqn:Hd.
    - destruct (adapter_request_queue (rt_get_adapter (runtime w) i))
        as [q | e'] eqn:Hq; [discriminate Hf |].
      injection Hf as ->. eexists.
      split; [apply (ctor_queue_raises _ _ _ _ _ Hd Hq) | repeat split].
    - injection Hf as ->. eexists.
      split; [apply (ctor_device_raises _ _ _ _ Hd) | repeat split]. }
  destruct Hc as (evs & Hc & Ha & Hn & Hdl). exists evs.
  split; [| repeat split; assumption].
  unfold context, context_initializer, new_Context, TORCH_CHECK_as, fatal.
  run_m. rewrite Hs. simpl. fold i. rewrite Hc.
  destruct (is_std_exception e); reflexivity.
Qed.

Lemma context_constructs (w : World) :
  context_static w = None ->
  construction_failure (runtime w) = None ->
  exists a c w',
    context w = (Ok (ptr_of_addr a), w') /\
    context_static w' = Some (Some (a, c)) /\
    log w' = log w ++ [EvDeviceHandle (rt_default_adapter_i (runtime w));
                       EvRequestQueue (rt_default_adapter_i (runtime w));
                       EvNew (ptr_of_addr a)] /\
    runtime w' = runtime w /\ driver w' = driver w /\
    tls w' = tls w /\ buffers w' = buffers w /\
    next_handle w' = N.succ (next_handle w).
Proof.
  intros Hs Hf. unfold construction_failure in Hf.
  set (i := rt_default_adapter_i (runtime w)) in *.
  destruct (adapter_device_handle (rt_get_adapter (runtime w) i))
    as [d | e'] eqn:Hd; [| discriminate Hf].
  destruct (adapter_request_queue (rt_get_adapter (runtime w) i))
    as [q | e'] eqn:Hq; [| discriminate Hf].
  unfold context, context_initializer, new_Context, fresh_handle,
    TORCH_INTERNAL_ASSERT_DEBUG_ONLY.
  unfold Context_ctor, Adapter_device_handle, Adapter_request_queue.
  run_m. rewrite Hs. simpl. fold i. rewrite Hd. simpl. rewrite Hq. simpl.
  rewrite andb_false_r. eexists _, _, _. split; [reflexivity |].
  simpl. rewrite <- !app_assoc. repeat split.
Qed.

Lemma lifecycle_Inv (w w' : World) :
  lifecycle w' = lifecycle w -> Inv w -> Inv w'.
Proof.
  unfold lifecycle, Inv, slot. intros E [Hd Hn].
  injection E as Es En Ed. rewrite Ed, En. split; [exact Hd |].
  destruct (context_static w) as [[[a c] |] |],
           (context_static w') as [[[a' c'] |] |];
    try discriminate Es; try contradiction; try assumption.
  injection Es as ->. exact Hn.
Qed.

Lemma lifecycle_owner (w w' : World) (p : N) :
  lifecycle w' = lifecycle w -> owner w p -> owner w' p.
Proof.
  unfold lifecycle, owner. intros E (a & Hs & Hp).
  injection E as Es _ _. exists a. rewrite Es. auto.
Qed.

Lemma initial_Inv (w : World) : initial w -> Inv w.
Proof. intros [Hs Hl]. unfold Inv. rewrite Hs, Hl. split; reflexivity. Qed.

(** After [context()] the invariant holds again, and a returned pointer is
    the owned object's. *)
Lemma context_Inv (w : World) :
  Inv w ->
  Inv (snd (context w)) /\
  (forall p, fst (context w) = Ok p -> owner (snd (context w)) p).
Proof.
  intros HI. pose proof HI as [Hd Hn].
  destruct (context_static w) as [[[a c] |] |] eqn:Hs; [| contradiction |].
  - rewrite (context_initialised w a c Hs). simpl. split; [exact HI |].
    intros p E. injection E as <-. exists a. unfold slot. rewrite Hs. auto.
  - destruct (construction_failure (runtime w)) as [e |] eqn:Hf.
    + destruct (context_fails w e Hs Hf) as (evs & -> & _ & Hne & Hde). simpl.
      split; [| intros p E; discriminate E].
      unfold Inv. simpl. rewrite Hs, news_app, deletes_app, Hne, Hde, Hn, Hd.
      split; reflexivity.
    + destruct (context_constructs w Hs Hf) as (a & c & w' & -> & Hs' & Hl & _).
      simpl. split.
      * unfold Inv. rewrite Hs', Hl, news_app, deletes_app, Hn, Hd.
        split; reflexivity.
      * intros p E. injection E as <-. exists a. unfold slot. rewrite Hs'. auto.
Qed.

Lemma context_owner (w : World) (p : N) :
  owner w p -> context w = (Ok p, w).
Proof.
  intros (a & Hs & ->). unfold slot in Hs.
  destruct (context_static w) as [[[a' c] |] |] eqn:E; try discriminate Hs.
  injection Hs as ->. apply (context_initialised w a c E).
Qed.

(** Every call but the epilogue is [context()] followed by a quiet
    continuation that can only return the pointer it was given. *)
Lemma exec_uses_context (c : Call) :
  uses_context c = true ->
  exists k : N -> M Value,
    (forall w, exec c w = (context ≫= k) w) /\ (forall p, quiet (k p)) /\
    (forall p w v, fst (k p w) = Ok (VPtr v) -> v = p).
Proof.
  destruct c as [| | t | t src | t b sig sd lwg | b s g]; simpl; intros Hu;
    try discriminate Hu.
  - exists (fun p => ret (VPtr p)). split; [reflexivity | split].
    + intros p. quiet_solve.
    + intros p w v E. injection E as <-. reflexivity.
  - exists (fun p => ret (VBool (truthy p))).
    split; [| split].
    + intros w. unfold available. run_m.
      destruct (context w) as [[p | e] w1]; reflexivity.
    + intros p. quiet_solve.
    + intros p w v E. discriminate E.
  - exists (fun p => self ← deref p; Context_flush self t;; ret VUnit).
    split; [reflexivity | split].
    + intros p. quiet_solve.
    + intros p w v. run_m.
      destruct (deref p w) as [[self | e] w1]; [| discriminate].
      destruct (Context_flush self t w1) as [[[] | e] w2]; discriminate.
  - exists (fun p => self ← deref p; Context_wait self t src;; ret VUnit).
    split; [reflexivity | split].
    + intros p. quiet_solve.
    + intros p w v. run_m.
      destruct (deref p w) as [[self | e] w1]; [| discriminate].
      destruct (Context_wait self t src w1) as [[[] | e] w2]; discriminate.
  - exists (fun p => s ← prologue_body t b sig sd lwg p; ret (VSet s)).
    split; [| split].
    + intros w. unfold dispatch_prologue. fold (prologue_body t b sig sd lwg).
      run_m. destruct (context w) as [[p | e] w1]; reflexivity.
    + intros p. pose proof (quiet_prologue_body t b sig sd lwg p). quiet_solve.
    + intros p w v. run_m.
      destruct (prologue_body t b sig sd lwg p w) as [[s | e] w1]; discriminate.
Qed.

Lemma exec_epilogue (c : Call) (w : World) :
  uses_context c = false ->
  fst (exec c w) = Ok VUnit /\
  log (snd (exec c w)) = log w /\
  context_static (snd (exec c w)) = context_static w /\
  runtime (snd (exec c w)) = runtime w.
Proof.
  destruct c; simpl; intros Hu; try discriminate Hu.
  repeat split.
Qed.

Lemma exec_Inv (c : Call) (w : World) :
  Inv w ->
  Inv (snd (exec c w)) /\
  (forall p, fst (exec c w) = Ok (VPtr p) -> owner (snd (exec c w)) p).
Proof.
  intros HI. destruct (uses_context c) eqn:Hu.
  - destruct (exec_uses_context c Hu) as (k & Hk & Hq & Hv).
    rewrite Hk. run_m.
    destruct (context_Inv w HI) as [HI1 Ho1].
    destruct (context w) as [[p | e] w1]; simpl in *.
    + split.
      * exact (lifecycle_Inv _ _ (Hq p w1) HI1).
      * intros v E. apply Hv in E. subst v.
        apply (lifecycle_owner _ _ _ (Hq p w1)). apply Ho1. reflexivity.
    + split; [exact HI1 | intros v E; discriminate E].
  - destruct (exec_epilogue c w Hu) as (Hr & Hl & Hs & _). split.
    + unfold Inv in *. rewrite Hl, Hs. exact HI.
    + intros p E. rewrite Hr in E. discriminate E.
Qed.

Lemma exec_owner (c : Call) (w : World) (p : N) :
  owner w p -> owner (snd (exec c w)) p.
Proof.
  intros Ho. destruct (uses_context c) eqn:Hu.
  - destruct (exec_uses_context c Hu) as (k & Hk & Hq & _).
    rewrite Hk. run_m. rewrite (context_owner w p Ho).
    apply (lifecycle_owner _ _ _ (Hq p w)). exact Ho.
  - destruct (exec_epilogue c w Hu) as (_ & _ & Hs & _).
    destruct Ho as (a & Ha & ->). exists a. unfold slot in *.
    rewrite Hs. auto.
Qed.

Lemma run_Inv (cs : list Call) (w : World) : Inv w -> Inv (snd (run cs w)).
Proof.
  revert w. induction cs as [| c cs IH]; intros w HI; simpl; [exact HI |].
  apply IH. apply exec_Inv. exact HI.
Qed.

Lemma run_owner (cs : list Call) (w : World) (p : N) :
  owner w p -> owner (snd (run cs w)) p.
Proof.
  revert w. induction cs as [| c cs IH]; intros w Ho; simpl; [exact Ho |].
  apply IH. apply exec_owner. exact Ho.
Qed.

Lemma run_pointer (cs : list Call) (w : World) (j : nat) (p : N) :
  Inv w ->
  fst (run cs w) !! j = Some (Ok (VPtr p)) ->
  owner (snd (run cs w)) p.
Proof.
  revert w j. induction cs as [| c cs IH]; intros w j HI E; simpl in *.
  - destruct j; discriminate E.
  - destruct (exec_Inv c w HI) as [HI1 Ho1]. destruct j as [| j]; simpl in E.
    + injection E as E. apply run_owner. apply Ho1. exact E.
    + apply (IH _ j HI1 E).
Qed.

Lemma owner_Inv_news (w : World) (p : N) :
  Inv w -> owner w p -> news (log w) = [p] /\ p <> nullptr.
Proof.
  intros [_ Hn] (a & Hs & ->). unfold slot in Hs.
  destruct (context_static w) as [[[a' c] |] |]; try discriminate Hs.
  injection Hs as ->. split; [exact Hn | discriminate].
Qed.

Lemma process_exit_Inv (w : World) :
  Inv w ->
  fst (process_exit w) = Ok tt /\
  news (log (snd (process_exit w))) = news (log w) /\
  deletes (log (snd (process_exit w))) = news (log w).
Proof.
  intros [Hd Hn]. unfold process_exit, Context_dtor, Adapter_return_queue.
  run_m. destruct (context_static w) as [[[a c] |] |]; simpl.
  - rewrite !news_app, !deletes_app, Hd, Hn. repeat split.
  - contradiction.
  - rewrite Hd, Hn. repeat split.
Qed.

(** ** Failure of construction *)

Lemma attempts_app (l1 l2 : list Event) :
  attempts (l1 ++ l2) = (attempts l1 + attempts l2)%nat.
Proof. unfold attempts. rewrite List.filter_app, length_app. reflexivity. Qed.

Lemma exec_construction_fails (c : Call) (w : World) (e : Error) :
  context_static w = None ->
  construction_failure (runtime w) = Some e ->
  context_static (snd (exec c w)) = None /\
  runtime (snd (exec c w)) = runtime w /\
  attempts (log (snd (exec c w)))
    = (attempts (log w) + if uses_context c then 1 else 0)%nat /\
  (uses_context c = true -> fst (exec c w) = Throw (fatal e)).
Proof.
  intros Hs Hf. destruct (uses_context c) eqn:Hu.
  - destruct (exec_uses_context c Hu) as (k & Hk & _).
    destruct (context_fails w e Hs Hf) as (evs & Hc & Ha & _).
    rewrite Hk. run_m. rewrite Hc. simpl.
    rewrite attempts_app, Ha. repeat split; assumption || reflexivity.
  - destruct (exec_epilogue c w Hu) as (_ & Hl & Hst & Hr).
    rewrite Hl, Hst, Hr. repeat split; [assumption | simpl; lia | discriminate].
Qed.

(** While the adapter keeps failing, the static stays uninitialised, so
    every call that enters [context()] runs the constructor again and
    raises the same fatal error, [available()] included. *)
Lemma failed_construction_is_fatal_on_every_call
    (w : World) (e : Error) (cs : list Call) :
  context_static w = None ->
  construction_failure (runtime w) = Some e ->
  context_static (snd (run cs w)) = None /\
  attempts (log (snd (run cs w)))
    = (attempts (log w) + length (List.filter uses_context cs))%nat /\
  (forall j c,
      cs !! j = Some c -> uses_context c = true ->
      fst (run cs w) !! j = Some (Throw (fatal e))) /\
  (forall j b, fst (run cs w) !! j <> Some (Ok (VBool b))).
Proof.
  revert w. induction cs as [| c cs IH]; intros w Hs Hf; simpl.
  - split; [exact Hs | split; [lia | split]].
    + intros j c E. discriminate E.
    + intros j b E. discriminate E.
  - destruct (exec_construction_fails c w e Hs Hf) as (Hs1 & Hr1 & Ha1 & Ht1).
    rewrite <- Hr1 in Hf.
    destruct (IH (snd (exec c w)) Hs1 Hf) as (Hs2 & Ha2 & Ht2 & Hb2).
    split; [exact Hs2 | split; [| split]].
    + rewrite Ha2, Ha1. destruct (uses_context c); simpl; lia.
    + intros [| j] c' E Hu; simpl in *.
      * injection E as <-. rewrite (Ht1 Hu). reflexivity.
      * apply (Ht2 j c' E Hu).
    + intros [| j] b E; simpl in *; [| exact (Hb2 j b E)].
      injection E as E. destruct (uses_context c) eqn:Hu.
      * rewrite (Ht1 eq_refl) in E. discriminate E.
      * destruct (exec_epilogue c w Hu) as (Hr & _). rewrite Hr in E.
        discriminate E.
Qed.

Lemma failed_construction_is_fatal_on_every_call_witness :
  fst (run [CallContext; CallAvailable; CallContext]
         (boot lost_driver failing_adapter)) !! 1%nat
    = Some (Throw (ContextInitFailed (VkCheckFailed VK_ERROR_INITIALIZATION_FAILED))) /\
  attempts (log (snd (run [CallContext; CallAvailable; CallContext]
                        (boot lost_driver failing_adapter)))) = 3%nat.
Proof.
  destruct (failed_construction_is_fatal_on_every_call
              (boot lost_driver failing_adapter)
              (VkCheckFailed VK_ERROR_INITIALIZATION_FAILED)
              [CallContext; CallAvailable; CallContext]
              eq_refl eq_refl) as (_ & Ha & Ht & _).
  split.
  - apply (Ht 1%nat CallAvailable); reflexivity.
  - exact Ha.
Defined.

(** C1. The code departs from the claim.  With an adapter that cannot
    create its device, [context()] raises; the [available()] that follows
    does not return [false] but raises the same error, and so does the
    next [context()]; and each of the three calls has run the constructor
    again, the adapter having been asked for its device three times. *)
Lemma available_raises_after_failed_construction :
  fst (run [CallContext; CallAvailable; CallContext]
         (boot lost_driver failing_adapter))
    = [Throw (ContextInitFailed (VkCheckFailed VK_ERROR_INITIALIZATION_FAILED));
       Throw (ContextInitFailed (VkCheckFailed VK_ERROR_INITIALIZATION_FAILED));
       Throw (ContextInitFailed (VkCheckFailed VK_ERROR_INITIALIZATION_FAILED))] /\
  fst (run [CallContext; CallAvailable; CallContext]
         (boot lost_driver failing_adapter)) !! 1%nat
    <> Some (Ok (VBool false)) /\
  log (snd (run [CallContext; CallAvailable; CallContext]
              (boot lost_driver failing_adapter)))
    = [EvDeviceHandle 0; EvDeviceHandle 0; EvDeviceHandle 0].
Proof.
  split; [reflexivity | split; [discriminate | reflexivity]].
Qed.

(** ** Exactly one instance *)

Lemma exec_constructs (c : Call) (w : World) :
  context_static w = None ->
  news (log w) = [] ->
  deletes (log w) = [] ->
  construction_failure (runtime w) = None ->
  uses_context c = true ->
  exists p,
    p <> nullptr /\ Inv (snd (exec c w)) /\ owner (snd (exec c w)) p /\
    (c = CallContext -> fst (exec c w) = Ok (VPtr p)).
Proof.
  intros Hs Hn Hd Hf Hu.
  destruct (context_constructs w Hs Hf) as (a & c0 & w' & Hc & Hs' & Hl & _).
  assert (HI : Inv w').
  { unfold Inv. rewrite Hs', Hl, news_app, deletes_app, Hn, Hd. split; reflexivity. }
  assert (Ho : owner w' (ptr_of_addr a)).
  { exists a. unfold slot. rewrite Hs'. auto. }
  exists (ptr_of_addr a). split; [discriminate |].
  assert (Hr : c = CallContext -> fst (exec c w) = Ok (VPtr (ptr_of_addr a))).
  { intros ->. simpl. run_m. rewrite Hc. reflexivity. }
  destruct (exec_uses_context c Hu) as (k & Hk & Hq & _).
  rewrite Hk in *. run_m. rewrite Hc in *.
  split; [exact (lifecycle_Inv _ _ (Hq _ w') HI) |].
  split; [exact (lifecycle_owner _ _ _ (Hq _ w') Ho) | exact Hr].
Qed.

Lemma run_constructed (cs : list Call) (w : World) (p : N) :
  Inv w -> owner w p ->
  (forall j, cs !! j = Some CallContext ->
             fst (run cs w) !! j = Some (Ok (VPtr p))) /\
  news (log (snd (run cs w))) = [p] /\
  deletes (log (snd (run cs w))) = [].
Proof.
  intros HI Ho. split; [| split].
  - revert w HI Ho. induction cs as [| c cs IH]; intros w HI Ho j E.
    + destruct j; discriminate E.
    + destruct j as [| j]; simpl in *.
      * injection E as ->. simpl. run_m. rewrite (context_owner w p Ho).
        reflexivity.
      * apply IH; [apply exec_Inv; exact HI | apply exec_owner; exact Ho | exact E].
  - apply (owner_Inv_news _ p (run_Inv cs w HI) (run_owner cs w p Ho)).
  - apply (run_Inv cs w HI).
Qed.

Lemma run_unconstructed (cs : list Call) :
  forall w,
    context_static w = None ->
    news (log w) = [] ->
    deletes (log w) = [] ->
    construction_failure (runtime w) = None ->
    exists p,
      p <> nullptr /\
      (forall j, cs !! j = Some CallContext ->
                 fst (run cs w) !! j = Some (Ok (VPtr p))) /\
      (forall n, news (log (snd (run (take n cs) w)))
                 = if existsb uses_context (take n cs) then [p] else []) /\
      deletes (log (snd (run cs w))) = [].
Proof.
  induction cs as [| c cs IH]; intros w Hs Hn Hd Hf.
  - exists 1%N. split; [discriminate |]. split; [| split].
    + intros j E. discriminate E.
    + intros n. rewrite take_nil. exact Hn.
    + exact Hd.
  - destruct (uses_context c) eqn:Hu.
    + destruct (exec_constructs c w Hs Hn Hd Hf Hu) as (p & Hp & HI & Ho & Hr).
      exists p. split; [exact Hp |]. split; [| split].
      * intros [| j] E; simpl in *.
        -- injection E as ->. rewrite (Hr eq_refl). reflexivity.
        -- apply (run_constructed cs _ p HI Ho). exact E.
      * intros [| n]; simpl; [exact Hn |]. rewrite Hu. simpl.
        apply (run_constructed (take n cs) _ p HI Ho).
      * simpl. apply (run_constructed cs _ p HI Ho).
    + destruct (exec_epilogue c w Hu) as (Hr & Hl & Hst & Hrt).
      destruct (IH (snd (exec c w))) as (p & Hp & Hctx & Hpre & Hdel);
        try (rewrite ?Hl, ?Hst, ?Hrt; assumption).
      exists p. split; [exact Hp |]. split; [| split].
      * intros [| j] E; simpl in *.
        -- injection E as ->. discriminate Hu.
        -- apply Hctx. exact E.
      * intros [| n]; simpl; [exact Hn |]. rewrite Hu. simpl. apply Hpre.
      * simpl. exact Hdel.
Qed.

(** C7 (as the code has it).  In a process that starts with the static
    uninitialised and whose adapter can provide a device and a queue:
    no [Context] exists until the first call that enters [context()];
    that call constructs one, and from then on there is exactly that one;
    every call to [context()] returns the same non-null pointer to it;
    no call destroys it; and static destruction at process exit destroys
    exactly it, once.  When instead the adapter fails, every call to
    [context()] raises and no instance exists at any time. *)
Theorem context_is_a_lazy_singleton (w : World) (cs : list Call) :
  initial w ->
  (construction_failure (runtime w) = None ->
   exists p,
     p <> nullptr /\
     (forall j, cs !! j = Some CallContext ->
                fst (run cs w) !! j = Some (Ok (VPtr p))) /\
     (forall n, news (log (snd (run (take n cs) w)))
                = if existsb uses_context (take n cs) then [p] else []) /\
     news (log (snd (run cs w)))
       = (if existsb uses_context cs then [p] else []) /\
     deletes (log (snd (run cs w))) = [] /\
     fst (process_exit (snd (run cs w))) = Ok tt /\
     deletes (log (snd (process_exit (snd (run cs w)))))
       = news (log (snd (run cs w)))) /\
  (forall e, construction_failure (runtime w) = Some e ->
     news (log (snd (run cs w))) = [] /\
     context_static (snd (run cs w)) = None /\
     (forall j, cs !! j = Some CallContext ->
                fst (run cs w) !! j = Some (Throw (fatal e)))).
Proof.
  intros Hi. pose proof (initial_Inv w Hi) as HI.
  pose proof (run_Inv cs w HI) as HI'.
  destruct Hi as [Hs Hl].
  assert (Hn : news (log w) = []) by (rewrite Hl; reflexivity).
  assert (Hd : deletes (log w) = []) by (rewrite Hl; reflexivity).
  split.
  - intros Hf.
    destruct (run_unconstructed cs w Hs Hn Hd Hf) as (p & Hp & Hctx & Hpre & Hdel).
    destruct (process_exit_Inv _ HI') as (Hx & _ & Hdx).
    exists p. split; [exact Hp |]. split; [exact Hctx |].
    split; [exact Hpre |]. split; [| auto].
    pose proof (Hpre (length cs)) as E. rewrite firstn_all in E. exact E.
  - intros e Hf.
    destruct (failed_construction_is_fatal_on_every_call w e cs Hs Hf)
      as (Hs' & _ & Ht & _).
    split; [| split; [exact Hs' |]].
    + destruct HI' as [_ Hn']. rewrite Hs' in Hn'. exact Hn'.
    + intros j E. apply (Ht j CallContext E). reflexivity.
Qed.

Lemma context_is_a_lazy_singleton_witness :
  exists p,
    p <> nullptr /\
    fst (run [CallEpilogue 30%N sample_set (wg 1 1 1); CallContext; CallFlush 1;
              CallContext] (boot ok_driver good_adapter)) !! 1%nat
      = Some (Ok (VPtr p)) /\
    fst (run [CallEpilogue 30%N sample_set (wg 1 1 1); CallContext; CallFlush 1;
              CallContext] (boot ok_driver good_adapter)) !! 3%nat
      = Some (Ok (VPtr p)) /\
    news (log (snd (run [CallEpilogue 30%N sample_set (wg 1 1 1)]
                      (boot ok_driver good_adapter)))) = [] /\
    news (log (snd (run [CallEpilogue 30%N sample_set (wg 1 1 1); CallContext;
                         CallFlush 1; CallContext]
                      (boot ok_driver good_adapter)))) = [p].
Proof.
  assert (Hi : initial (boot ok_driver good_adapter)) by (split; reflexivity).
  destruct (context_is_a_lazy_singleton (boot ok_driver good_adapter)
              [CallEpilogue 30%N sample_set (wg 1 1 1); CallContext; CallFlush 1;
               CallContext] Hi) as [Hok _].
  destruct (Hok eq_refl) as (p & Hp & Hctx & Hpre & Hall & _).
  exists p. split; [exact Hp |].
  split; [apply Hctx; reflexivity |].
  split; [apply Hctx; reflexivity |].
  split; [exact (Hpre 1%nat) | exact Hall].
Defined.

(** C7 as stated fails: with an adapter that cannot create its device the
    first call to [context()] constructs nothing and raises, a later call
    returns no pointer either, and no instance exists. *)
Lemma no_instance_after_a_failed_first_call :
  fst (run [CallContext; CallContext] (boot lost_driver failing_adapter))
    = [Throw (ContextInitFailed (VkCheckFailed VK_ERROR_INITIALIZATION_FAILED));
       Throw (ContextInitFailed (VkCheckFailed VK_ERROR_INITIALIZATION_FAILED))] /\
  news (log (snd (run [CallContext; CallContext]
                    (boot lost_driver failing_adapter)))) = [] /\
  context_static (snd (run [CallContext; CallContext]
                         (boot lost_driver failing_adapter))) = None.
Proof.
  split; [reflexivity | split; reflexivity].
Qed.

(** ** The dispatch protocol: properties *)

Lemma frame_refl (w : World) : frame w w.
Proof. repeat split. lia. Qed.

Lemma frame_trans (w1 w2 w3 : World) : frame w1 w2 -> frame w2 w3 -> frame w1 w3.
Proof.
  intros (Hd1 & Ht1 & Hb1 & Hn1) (Hd2 & Ht2 & Hb2 & Hn2).
  repeat split; try congruence. lia.
Qed.

Lemma static_object_Some (w : World) (a : positive) (c : Context) :
  static_object w = Some (a, c) <-> context_static w = Some (Some (a, c)).
Proof.
  unfold static_object. destruct (context_static w) as [u |]; split; intros E;
    try discriminate E; congruence.
Qed.

(** When [context()] returns a non-null pointer, the static owns the object
    behind it; only the log and the handle counter may have moved. *)
Lemma context_returns (w : World) (p : N) (w0 : World) :
  context w = (Ok p, w0) ->
  p <> nullptr ->
  exists a c evs,
    p = ptr_of_addr a /\ static_object w0 = Some (a, c) /\
    frame w w0 /\ log w0 = log w ++ evs /\ retrievals evs = [].
Proof.
  intros Hc Hp.
  destruct (context_static w) as [[[a c] |] |] eqn:Hs.
  - rewrite (context_initialised w a c Hs) in Hc. injection Hc as <- <-.
    exists a, c, []. rewrite app_nil_r.
    repeat split; try (apply static_object_Some; exact Hs). lia.
  - destruct (context_empty w Hs) as [Hw [Hn | [e He]]]; rewrite Hc in *;
      simpl in *; congruence.
  - destruct (construction_failure (runtime w)) as [e |] eqn:Hf.
    + destruct (context_fails w e Hs Hf) as (evs & E & _). congruence.
    + destruct (context_constructs w Hs Hf)
        as (a & c & w' & E & Hs' & Hl & _ & Hd & Ht & Hb & Hn).
      rewrite E in Hc. injection Hc as <- <-.
      exists a, c. eexists. split; [reflexivity |].
      split; [apply static_object_Some; exact Hs' |].
      split; [| split; [exact Hl | reflexivity]].
      repeat split; try assumption. lia.
Qed.

Lemma Cache_retrieve_ok `{Countable K} (kind : CacheKind) (call : NativeCall)
    (read : Context -> gmap K N) (write : gmap K N -> Context -> Context)
    (a : positive) (c : Context) (key : K) (w : World) :
  static_object w = Some (a, c) ->
  vkNative (driver w) call = VK_SUCCESS ->
  exists h w' evs c',
    Cache_retrieve kind call read write (ptr_of_addr a) key w = (Ok h, w') /\
    frame w w' /\ log w' = log w ++ evs /\ retrievals evs = [kind] /\
    static_object w' = Some (a, c') /\
    (c' = c /\ read c !! key = Some h \/
     c' = write (<[key := h]> (read c)) c).
Proof.
  intros Hs Hd. unfold Cache_retrieve, deref. run_m. rewrite Hs.
  simpl. rewrite Pos.eqb_refl.
  destruct (read c !! key) as [h |] eqn:Hk.
  - eexists h, _, [EvRetrieve kind true], c. split; [reflexivity |].
    split; [repeat split; simpl; lia |].
    split; [reflexivity | split; [reflexivity | split; [exact Hs | auto]]].
  - unfold native, fresh_handle, update_object, VK_CHECK. run_m. simpl.
    rewrite Hd. simpl.
    change (static_object (set_next_handle _ _)) with (static_object w).
    rewrite Hs.
    eexists _, _, [EvRetrieve kind false; EvNative call VK_SUCCESS], _.
    split; [reflexivity |].
    split; [repeat split; simpl; lia |].
    split; [simpl; rewrite <- app_assoc; reflexivity |].
    split; [reflexivity | split; [reflexivity | right; reflexivity]].
Qed.

Lemma retrievals_app (l1 l2 : list Event) :
  retrievals (l1 ++ l2) = retrievals l1 ++ retrievals l2.
Proof. apply omap_app. Qed.

Lemma prologue_body_ok (t : nat) (cb : N) (sig : list N) (sd : N)
    (lwg : WorkGroup) (a : positive) (c : Context) (w0 : World) :
  static_object w0 = Some (a, c) ->
  (forall call, vkNative (driver w0) call = VK_SUCCESS) ->
  exists set pipe w1 evs c1 dsl sm,
    prologue_body t cb sig sd lwg (ptr_of_addr a) w0 = (Ok set, w1) /\
    log w1 = log w0 ++ evs /\
    retrievals evs =
      [ShaderLayoutCache; PipelineLayoutCache; ShaderCache; PipelineCache] /\
    static_object w1 = Some (a, c1) /\
    shader_layout_cache (shader_ c1) !! sig = Some dsl /\
    pipeline_layout_cache (pipeline_ c1) !! dsl = Some (po_layout pipe) /\
    shader_cache (shader_ c1) !! sd = Some sm /\
    pipeline_cache (pipeline_ c1) !! (po_layout pipe, sm, wg_key lwg)
      = Some (po_handle pipe) /\
    po_local_work_group pipe = lwg /\
    buffers w1 = <[cb := buffer_contents w0 cb ++ [CmdBindPipeline pipe]]> (buffers w0) /\
    tls w1 = <[t := with_set set (pools_of w0 t)]> (tls w0) /\
    ds_signature set = sig /\ ds_bindings set = [] /\
    (next_handle w0 < ds_handle set)%N.
Proof.
  intros Hs Hd.
  destruct (Cache_retrieve_ok ShaderLayoutCache NcCreateDescriptorSetLayout
              (fun c => shader_layout_cache (shader_ c)) set_shader_layout_cache
              a c sig w0 Hs (Hd _))
    as (dsl & w1 & ev1 & c1 & E1 & (Fd1 & Ft1 & Fb1 & Fn1) & L1 & R1 & S1 & C1).
  assert (Hd1 : forall call, vkNative (driver w1) call = VK_SUCCESS)
    by (intros; rewrite Fd1; apply Hd).
  destruct (Cache_retrieve_ok PipelineLayoutCache NcCreatePipelineLayout
              (fun c => pipeline_layout_cache (pipeline_ c))
              set_pipeline_layout_cache a c1 dsl w1 S1 (Hd1 _))
    as (pl & w2 & ev2 & c2 & E2 & (Fd2 & Ft2 & Fb2 & Fn2) & L2 & R2 & S2 & C2).
  assert (Hd2 : forall call, vkNative (driver w2) call = VK_SUCCESS)
    by (intros; rewrite Fd2; apply Hd1).
  destruct (Cache_retrieve_ok ShaderCache NcCreateShaderModule
              (fun c => shader_cache (shader_ c)) set_shader_cache
              a c2 sd w2 S2 (Hd2 _))
    as (sm & w3 & ev3 & c3 & E3 & (Fd3 & Ft3 & Fb3 & Fn3) & L3 & R3 & S3 & C3).
  assert (Hd3 : forall call, vkNative (driver w3) call = VK_SUCCESS)
    by (intros; rewrite Fd3; apply Hd2).
  destruct (Cache_retrieve_ok PipelineCache NcCreateComputePipelines
              (fun c => pipeline_cache (pipeline_ c)) set_pipeline_cache
              a c3 (pl, sm, wg_key lwg) w3 S3 (Hd3 _))
    as (ph & w4 & ev4 & c4 & E4 & (Fd4 & Ft4 & Fb4 & Fn4) & L4 & R4 & S4 & C4).
  pose proof (Hd3 NcAllocateDescriptorSets) as Ha. rewrite <- Fd4 in Ha.
  set (pipe := {| po_handle := ph; po_layout := pl; po_local_work_group := lwg |}).
  set (set := {| ds_handle := N.succ (next_handle w4); ds_signature := sig;
                 ds_bindings := [] |}).
  exists set, pipe. eexists. exists (ev1 ++ ev2 ++ ev3 ++ ev4 ++
                          [EvNative NcAllocateDescriptorSets VK_SUCCESS]).
  exists c4, dsl, sm.
  split.
  { unfold prologue_body, shader_layout_cache_retrieve,
      pipeline_layout_cache_retrieve, shader_cache_retrieve,
      pipeline_cache_retrieve, Buffer_bind_pipeline, record,
      DescriptorPool_allocate, native, fresh_handle, VK_CHECK.
    run_m. rewrite E1. simpl. rewrite E2. rewrite E3.
    unfold pd_key. simpl. rewrite E4. simpl. rewrite Ha. simpl.
    reflexivity. }
  simpl.
  split. { rewrite L4, L3, L2, L1, <- !app_assoc. reflexivity. }
  split. { rewrite !retrievals_app, R1, R2, R3, R4. reflexivity. }
  split. { exact S4. }
  assert (K1 : shader_layout_cache (shader_ c1) !! sig = Some dsl).
  { destruct C1 as [[-> Hk] | ->]; [exact Hk | simpl; apply lookup_insert_eq]. }
  assert (K2 : pipeline_layout_cache (pipeline_ c2) !! dsl = Some pl /\
               shader_layout_cache (shader_ c2) !! sig = Some dsl).
  { destruct C2 as [[-> Hk] | ->]; [auto | simpl].
    split; [apply lookup_insert_eq | exact K1]. }
  assert (K3 : shader_cache (shader_ c3) !! sd = Some sm /\
               pipeline_layout_cache (pipeline_ c3) !! dsl = Some pl /\
               shader_layout_cache (shader_ c3) !! sig = Some dsl).
  { destruct K2 as [K2 K2'].
    destruct C3 as [[-> Hk] | ->]; [auto | simpl].
    split; [apply lookup_insert_eq | auto]. }
  assert (K4 : pipeline_cache (pipeline_ c4) !! (pl, sm, wg_key lwg) = Some ph /\
               shader_cache (shader_ c4) !! sd = Some sm /\
               pipeline_layout_cache (pipeline_ c4) !! dsl = Some pl /\
               shader_layout_cache (shader_ c4) !! sig = Some dsl).
  { destruct K3 as (K3 & K3' & K3'').
    destruct C4 as [[-> Hk] | ->]; [auto | simpl].
    split; [apply lookup_insert_eq | auto]. }
  destruct K4 as (K4 & K4a & K4b & K4c).
  repeat (split; [assumption || reflexivity |]).
  split.
  { unfold buffer_contents. rewrite Fb4, Fb3, Fb2, Fb1. reflexivity. }
  split.
  { unfold set_pools, pools_of. simpl. rewrite Ft4, Ft3, Ft2, Ft1. reflexivity. }
  repeat split. simpl. lia.
Qed.

Lemma recorded_app (w w' : World) (b : N) (cmds : list Cmd) :
  buffer_contents w' b = buffer_contents w b ++ cmds -> recorded w w' b = cmds.
Proof. intros E. unfold recorded. rewrite E. apply drop_app_length. Qed.

Lemma buffer_contents_insert (w w' : World) (b b' : N) (l : list Cmd) :
  buffers w' = <[b := l]> (buffers w) ->
  buffer_contents w' b' = if decide (b = b') then l else buffer_contents w b'.
Proof.
  intros E. unfold buffer_contents. rewrite E, lookup_insert.
  destruct (decide (b = b')); reflexivity.
Qed.

Lemma dispatch_prologue_context (t : nat) (cb : N) (sig : list N) (sd : N)
    (lwg : WorkGroup) (w : World) (p : N) (w0 : World) :
  context w = (Ok p, w0) ->
  dispatch_prologue t cb sig sd lwg w = prologue_body t cb sig sd lwg p w0.
Proof.
  intros Hc. unfold dispatch_prologue. fold (prologue_body t cb sig sd lwg).
  run_m. rewrite Hc. reflexivity.
Qed.

(** The prologue in terms of the world: what it returns, the lookups it
    logs, and the maps it updates. *)
Lemma dispatch_prologue_ok
    (t : nat) (cb : N) (sig : list N) (sd : N) (lwg : WorkGroup)
    (w : World) (p : N) (w0 : World) :
  context w = (Ok p, w0) ->
  p <> nullptr ->
  (forall call, vkNative (driver w) call = VK_SUCCESS) ->
  exists set pipe w1 a c1 dsl sm evs,
    dispatch_prologue t cb sig sd lwg w = (Ok set, w1) /\
    log w1 = log w ++ evs /\
    retrievals evs =
      [ShaderLayoutCache; PipelineLayoutCache; ShaderCache; PipelineCache] /\
    p = ptr_of_addr a /\ static_object w1 = Some (a, c1) /\
    shader_layout_cache (shader_ c1) !! sig = Some dsl /\
    pipeline_layout_cache (pipeline_ c1) !! dsl = Some (po_layout pipe) /\
    shader_cache (shader_ c1) !! sd = Some sm /\
    pipeline_cache (pipeline_ c1) !! (po_layout pipe, sm, wg_key lwg)
      = Some (po_handle pipe) /\
    po_local_work_group pipe = lwg /\
    buffers w1 = <[cb := buffer_contents w cb ++ [CmdBindPipeline pipe]]> (buffers w) /\
    tls w1 = <[t := with_set set (pools_of w t)]> (tls w) /\
    ds_signature set = sig /\ ds_bindings set = [] /\
    (next_handle w < ds_handle set)%N.
Proof.
  intros Hc Hp Hd.
  destruct (context_returns w p w0 Hc Hp)
    as (a & c & evs0 & -> & Hs & (Fd & Ft & Fb & Fn) & L0 & R0).
  assert (Hd0 : forall call, vkNative (driver w0) call = VK_SUCCESS)
    by (intros; rewrite Fd; apply Hd).
  destruct (prologue_body_ok t cb sig sd lwg a c w0 Hs Hd0)
    as (set & pipe & w1 & evs & c1 & dsl & sm & E & L & R & S1 & K1 & K2 & K3
        & K4 & Hl & Hb & Ht & Hsig & Hbind & Hh).
  exists set, pipe, w1, a, c1, dsl, sm, (evs0 ++ evs).
  split; [rewrite (dispatch_prologue_context _ _ _ _ _ _ _ _ Hc); exact E |].
  split; [rewrite L, L0, <- app_assoc; reflexivity |].
  split; [rewrite retrievals_app, R0, R; reflexivity |].
  repeat (split; [assumption || reflexivity |]).
  split.
  { rewrite Hb. unfold buffer_contents. rewrite Fb. reflexivity. }
  split.
  { rewrite Ht. unfold pools_of. rewrite Ft. reflexivity. }
  repeat (split; [assumption |]). lia.
Qed.

(** C3 (as the code has it).  Whenever [context()] yields the context and
    the driver succeeds, [dispatch_prologue] returns.  It goes through
    the four caches in this order: descriptor-set layout, pipeline layout
    (keyed by that layout), shader module, pipeline (keyed by pipeline
    layout, shader module and the local work-group size), so that each
    object is resolved after the ones its key is made of.  It records the
    binding of that pipeline, and nothing else, into the command stream,
    and returns a descriptor set that was just added to the calling
    thread's descriptor pool, carries the signature of the resolved
    layout, has no bindings yet and a handle no earlier allocation has.
    No dispatch command is recorded and no other thread's pool changes. *)
Theorem dispatch_prologue_resolves_binds_allocates
    (t : nat) (cb : N) (sig : list N) (sd : N) (lwg : WorkGroup)
    (w : World) (p : N) (w0 : World) :
  context w = (Ok p, w0) ->
  p <> nullptr ->
  (forall call, vkNative (driver w) call = VK_SUCCESS) ->
  exists set pipe w1 a c1 dsl sm,
    dispatch_prologue t cb sig sd lwg w = (Ok set, w1) /\
    retrievals (new_events w w1) =
      [ShaderLayoutCache; PipelineLayoutCache; ShaderCache; PipelineCache] /\
    p = ptr_of_addr a /\ static_object w1 = Some (a, c1) /\
    shader_layout_cache (shader_ c1) !! sig = Some dsl /\
    pipeline_layout_cache (pipeline_ c1) !! dsl = Some (po_layout pipe) /\
    shader_cache (shader_ c1) !! sd = Some sm /\
    pipeline_cache (pipeline_ c1) !! (po_layout pipe, sm, wg_key lwg)
      = Some (po_handle pipe) /\
    po_local_work_group pipe = lwg /\
    recorded w w1 cb = [CmdBindPipeline pipe] /\
    (forall b, b <> cb -> buffer_contents w1 b = buffer_contents w b) /\
    List.filter is_dispatch (recorded w w1 cb) = [] /\
    pools_of w1 t = with_set set (pools_of w t) /\
    (forall u, u <> t -> tls w1 !! u = tls w !! u) /\
    ds_signature set = sig /\ ds_bindings set = [] /\
    (next_handle w < ds_handle set)%N /\
    (Forall (fun s => (ds_handle s <= next_handle w)%N)
       (descriptor_pool (pools_of w t)) ->
     set ∉ descriptor_pool (pools_of w t)).
Proof.
  intros Hc Hp Hd.
  destruct (dispatch_prologue_ok t cb sig sd lwg w p w0 Hc Hp Hd)
    as (set & pipe & w1 & a & c1 & dsl & sm & evs & E & L & R & Ha & S1 & K1
        & K2 & K3 & K4 & Hl & Hb & Ht & Hsig & Hbind & Hh).
  exists set, pipe, w1, a, c1, dsl, sm.
  assert (Hbuf : buffer_contents w1 cb
                 = buffer_contents w cb ++ [CmdBindPipeline pipe]).
  { rewrite (buffer_contents_insert _ _ _ cb _ Hb).
    destruct (decide (cb = cb)); [reflexivity | contradiction]. }
  assert (Hrec : recorded w w1 cb = [CmdBindPipeline pipe])
    by (apply recorded_app; exact Hbuf).
  split; [exact E |].
  split; [rewrite (new_events_app w w1 evs L); exact R |].
  repeat (split; [assumption |]).
  split.
  { intros b Hne. rewrite (buffer_contents_insert _ _ _ b _ Hb).
    destruct (decide (cb = b)); [congruence | reflexivity]. }
  split; [rewrite Hrec; reflexivity |].
  split; [unfold pools_of at 1; rewrite Ht, lookup_insert_eq; reflexivity |].
  split.
  { intros u Hne. rewrite Ht, lookup_insert_ne; [reflexivity | congruence]. }
  repeat (split; [assumption |]).
  intros Hall Hin. rewrite Forall_forall in Hall.
  specialize (Hall set Hin). simpl in Hall. lia.
Qed.

Lemma dispatch_prologue_resolves_binds_allocates_witness :
  exists set pipe,
    fst (dispatch_prologue 1 30%N [7%N; 7%N] 99%N (wg 4 4 1) busy_world) = Ok set /\
    recorded busy_world
      (snd (dispatch_prologue 1 30%N [7%N; 7%N] 99%N (wg 4 4 1) busy_world)) 30%N
      = [CmdBindPipeline pipe] /\
    po_local_work_group pipe = wg 4 4 1 /\
    ds_signature set = [7%N; 7%N] /\
    set ∉ descriptor_pool (pools_of busy_world 1).
Proof.
  assert (Hp : 5%N <> nullptr) by discriminate.
  assert (Hd : forall call, vkNative (driver busy_world) call = VK_SUCCESS)
    by reflexivity.
  destruct (dispatch_prologue_resolves_binds_allocates 1 30%N [7%N; 7%N] 99%N
              (wg 4 4 1) busy_world 5%N busy_world eq_refl Hp Hd)
    as (set & pipe & w1 & a & c1 & dsl & sm & E & _ & _ & _ & _ & _ & _ & _
        & Hl & Hrec & _ & _ & _ & _ & Hsig & _ & _ & Hfresh).
  exists set, pipe. rewrite E. simpl.
  repeat (split; [assumption || reflexivity |]).
  apply Hfresh. simpl. repeat constructor. simpl. lia.
Defined.

(** C3 as stated fails: the compiled shader is not resolved before the
    pipeline layout but after it.  The order shows when the pipeline
    layout cannot be created: the call raises without the shader cache
    having been consulted and without a shader module having been
    compiled. *)
Lemma prologue_resolves_pipeline_layout_before_shader :
  retrievals (log (snd (dispatch_prologue 1 30%N [7%N; 7%N] 99%N (wg 4 4 1)
                          (boot ok_driver good_adapter))))
    = [ShaderLayoutCache; PipelineLayoutCache; ShaderCache; PipelineCache] /\
  retrievals (log (snd (dispatch_prologue 1 30%N [7%N; 7%N] 99%N (wg 4 4 1)
                          (boot ok_driver good_adapter))))
    <> [ShaderLayoutCache; ShaderCache; PipelineLayoutCache; PipelineCache] /\
  fst (dispatch_prologue 1 30%N [7%N; 7%N] 99%N (wg 4 4 1)
         (boot no_pipeline_layout_driver good_adapter))
    = Throw (VkCheckFailed VK_ERROR_OUT_OF_HOST_MEMORY) /\
  retrievals (log (snd (dispatch_prologue 1 30%N [7%N; 7%N] 99%N (wg 4 4 1)
                          (boot no_pipeline_layout_driver good_adapter))))
    = [ShaderLayoutCache; PipelineLayoutCache].
Proof.
  split; [reflexivity | split; [discriminate | split; reflexivity]].
Qed.

Lemma dispatch_epilogue_ok (b : N) (s : DescriptorSet) (g : WorkGroup) (w : World) :
  exists w2,
    dispatch_epilogue b s g w = (Ok tt, w2) /\
    buffer_contents w2 b
      = buffer_contents w b ++ [CmdBindDescriptorSet s; CmdDispatch g] /\
    (forall b', b' <> b -> buffer_contents w2 b' = buffer_contents w b') /\
    log w2 = log w /\ tls w2 = tls w /\
    context_static w2 = context_static w.
Proof.
  unfold dispatch_epilogue, Buffer_bind_set, Buffer_dispatch, record. run_m.
  eexists. split; [reflexivity |]. simpl.
  split; [| split; [| repeat split]].
  - unfold buffer_contents. simpl. rewrite !lookup_insert_eq. simpl.
    rewrite <- app_assoc. reflexivity.
  - intros b' Hne. unfold buffer_contents. simpl.
    rewrite !lookup_insert_ne by congruence. reflexivity.
Qed.

(** C4. [dispatch_epilogue] first records the binding of the descriptor
    set it is given and then exactly one dispatch command carrying the
    given global work-group shape, and touches nothing but that command
    stream.  Hence a prologue, the caller's bindings written into the
    returned set, and the epilogue record together: the binding of a
    pipeline whose local work-group shape is the one given to the
    prologue, the binding of the set, and one dispatch with the given
    global shape. *)
Theorem dispatch_round_trip_records_one_dispatch
    (t : nat) (cb : N) (sig : list N) (sd : N) (lwg g : WorkGroup)
    (bindings : list (N * N)) (w : World) (p : N) (w0 : World) :
  context w = (Ok p, w0) ->
  p <> nullptr ->
  (forall call, vkNative (driver w) call = VK_SUCCESS) ->
  (forall b s g' w',
      fst (dispatch_epilogue b s g' w') = Ok tt /\
      recorded w' (snd (dispatch_epilogue b s g' w')) b
        = [CmdBindDescriptorSet s; CmdDispatch g'] /\
      log (snd (dispatch_epilogue b s g' w')) = log w' /\
      tls (snd (dispatch_epilogue b s g' w')) = tls w') /\
  exists set pipe w1 w2,
    dispatch_prologue t cb sig sd lwg w = (Ok set, w1) /\
    dispatch_epilogue cb (bind_resources set bindings) g w1 = (Ok tt, w2) /\
    recorded w w2 cb =
      [CmdBindPipeline pipe;
       CmdBindDescriptorSet (bind_resources set bindings);
       CmdDispatch g] /\
    po_local_work_group pipe = lwg /\
    List.filter is_dispatch (recorded w w2 cb) = [CmdDispatch g].
Proof.
  intros Hc Hp Hd. split.
  - intros b s g' w'.
    destruct (dispatch_epilogue_ok b s g' w') as (w2 & E & Hb & _ & Hl & Ht & _).
    rewrite E. simpl. repeat split; try assumption.
    apply recorded_app. exact Hb.
  - destruct (dispatch_prologue_ok t cb sig sd lwg w p w0 Hc Hp Hd)
      as (set & pipe & w1 & a & c1 & dsl & sm & evs & E & _ & _ & _ & _ & _
          & _ & _ & _ & Hl & Hb & _).
    destruct (dispatch_epilogue_ok cb (bind_resources set bindings) g w1)
      as (w2 & E2 & Hb2 & _).
    exists set, pipe, w1, w2.
    assert (Hr : recorded w w2 cb =
              [CmdBindPipeline pipe;
               CmdBindDescriptorSet (bind_resources set bindings);
               CmdDispatch g]).
    { apply recorded_app. rewrite Hb2.
      rewrite (buffer_contents_insert _ _ _ cb _ Hb).
      destruct (decide (cb = cb)); [| contradiction].
      rewrite <- app_assoc. reflexivity. }
    repeat (split; [assumption |]). rewrite Hr. reflexivity.
Qed.

Lemma dispatch_round_trip_records_one_dispatch_witness :
  exists set pipe,
    fst (dispatch_prologue 1 30%N [7%N; 7%N] 99%N (wg 4 4 1) busy_world) = Ok set /\
    recorded busy_world
      (snd (dispatch_epilogue 30%N (bind_resources set [(0%N, 11%N)]) (wg 64 64 1)
              (snd (dispatch_prologue 1 30%N [7%N; 7%N] 99%N (wg 4 4 1) busy_world))))
      30%N
      = [CmdBindPipeline pipe;
         CmdBindDescriptorSet (bind_resources set [(0%N, 11%N)]);
         CmdDispatch (wg 64 64 1)] /\
    po_local_work_group pipe = wg 4 4 1.
Proof.
  assert (Hp : 5%N <> nullptr) by discriminate.
  assert (Hd : forall call, vkNative (driver busy_world) call = VK_SUCCESS)
    by reflexivity.
  destruct (dispatch_round_trip_records_one_dispatch 1 30%N [7%N; 7%N] 99%N
              (wg 4 4 1) (wg 64 64 1) [(0%N, 11%N)] busy_world 5%N busy_world
              eq_refl Hp Hd)
    as (_ & set & pipe & w1 & w2 & E & E2 & Hr & Hl & _).
  exists set, pipe. rewrite E. cbn [fst snd]. rewrite E2. cbn [fst snd]. auto.
Defined.

(** * Further properties of the code *)

(** ** Device extensions, [create_device] and [acquire_queue] *)

Lemma extension_reported_iff (r : string) (props : list VkExtensionProperties) :
  extension_reported r props = true <->
  exists e, e ∈ props /\ extensionName e = r.
Proof.
  induction props as [| e props IH]; simpl.
  - split; [discriminate |]. intros (e & Hin & _). apply elem_of_nil in Hin.
    contradiction.
  - destruct (String.eqb r (extensionName e)) eqn:E.
    + apply String.eqb_eq in E. split; [| reflexivity].
      intros _. exists e. split; [apply list_elem_of_here | auto].
    + apply String.eqb_neq in E. rewrite IH. split.
      * intros (e' & Hin & He). exists e'. split; [| exact He].
        apply list_elem_of_further. exact Hin.
      * intros (e' & Hin & He). apply elem_of_cons in Hin.
        destruct Hin as [-> | Hin]; [congruence |]. exists e'. auto.
Qed.

Lemma enable_device_extensions_elem
    (requested : list string) (props : list VkExtensionProperties) (x : string) :
  x ∈ enable_device_extensions requested props <->
  x ∈ requested /\ exists e, e ∈ props /\ extensionName e = x.
Proof.
  induction requested as [| r requested IH]; simpl.
  - split; [intros H; apply elem_of_nil in H; contradiction |].
    intros [H _]. apply elem_of_nil in H. contradiction.
  - destruct (extension_reported r props) eqn:E.
    + rewrite !elem_of_cons, IH. split.
      * intros [-> | [Hin He]]; [| auto].
        split; [left; reflexivity |]. apply extension_reported_iff. exact E.
      * intros [[-> | Hin] He]; [left; reflexivity | right; auto].
    + rewrite IH, elem_of_cons. split.
      * intros [Hin He]. auto.
      * intros [[-> | Hin] He]; [| auto].
        apply extension_reported_iff in He. congruence.
Qed.

(** X1. The extensions enabled on the device are exactly the requested
    ones that the device reports by name, in the order they were
    requested and each at most as often as it was requested, however
    often the device reports it; a device reporting none enables none. *)
Theorem enabled_extensions_are_requested_and_reported
    (requested : list string) (props : list VkExtensionProperties) :
  (forall x, x ∈ enable_device_extensions requested props <->
             x ∈ requested /\ exists e, e ∈ props /\ extensionName e = x) /\
  sublist (enable_device_extensions requested props) requested /\
  (enable_device_extensions requested [] = []).
Proof.
  split; [| split].
  - intros x. apply enable_device_extensions_elem.
  - induction requested as [| r requested IH]; simpl.
    + constructor.
    + destruct (extension_reported r props).
      * apply sublist_skip. exact IH.
      * apply sublist_cons. exact IH.
  - induction requested as [| r requested IH]; simpl; auto.
Qed.

Lemma create_device_unfold (pd idx : N) (w : World) :
  debug_build (build w) && negb (truthy pd) = false ->
  let counted := vkEnumerateDeviceExtensionProperties_count (driver w) pd in
  let listed := vkEnumerateDeviceExtensionProperties (driver w) pd (snd counted) in
  let names :=
    enable_device_extensions (requested_device_extensions (build w)) (snd listed) in
  let created :=
    vkCreateDevice (driver w) pd
      {| dc_queueCreateInfos :=
           [ {| dq_queueFamilyIndex := idx; dq_queueCount := 1%N;
                dq_queuePriorities := [1] |} ];
         dc_enabledLayerCount := 0%N;
         dc_enabledExtensionCount := N.of_nat (length names);
         dc_enabledExtensionNames := names |} in
  create_device pd idx w =
    (if negb (fst counted =? VK_SUCCESS)%Z then Throw (VkCheckFailed (fst counted))
     else if negb (fst listed =? VK_SUCCESS)%Z then Throw (VkCheckFailed (fst listed))
     else if negb (fst created =? VK_SUCCESS)%Z then Throw (VkCheckFailed (fst created))
     else if truthy (snd created) then Ok (snd created)
     else Throw (TorchCheckFailed "Invalid Vulkan device!"), w).
Proof.
  intros Hdbg. simpl.
  unfold create_device, TORCH_INTERNAL_ASSERT_DEBUG_ONLY, VK_CHECK,
    TORCH_CHECK, TORCH_CHECK_as.
  run_m. simpl. rewrite Hdbg.
  destruct (fst (vkEnumerateDeviceExtensionProperties_count (driver w) pd)
              =? VK_SUCCESS)%Z; simpl; [| reflexivity].
  destruct (fst (vkEnumerateDeviceExtensionProperties (driver w) pd _)
              =? VK_SUCCESS)%Z; simpl; [| reflexivity].
  match goal with
  | |- context [vkCreateDevice (driver w) pd ?info] =>
      destruct (vkCreateDevice (driver w) pd info) as [r dev]
  end.
  simpl. destruct (r =? VK_SUCCESS)%Z; simpl; [| reflexivity].
  destruct (truthy dev); reflexivity.
Qed.

(** X2. When [create_device] returns a device, the world is what it was,
    both extension enumerations succeeded, and the device is the one
    [vkCreateDevice] produced for a create-info with a single queue of
    the given family, no layers, and exactly the enabled extensions with
    their count; the only extension ever enabled is the portability
    subset, and only in builds that define it. *)
Theorem create_device_returns_the_created_device
    (pd idx : N) (w : World) (d : N) (w' : World) :
  create_device pd idx w = (Ok d, w') ->
  let counted := vkEnumerateDeviceExtensionProperties_count (driver w) pd in
  let listed := vkEnumerateDeviceExtensionProperties (driver w) pd (snd counted) in
  let names :=
    enable_device_extensions (requested_device_extensions (build w)) (snd listed) in
  w' = w /\
  fst counted = VK_SUCCESS /\ fst listed = VK_SUCCESS /\
  vkCreateDevice (driver w) pd
    {| dc_queueCreateInfos :=
         [ {| dq_queueFamilyIndex := idx; dq_queueCount := 1%N;
              dq_queuePriorities := [1] |} ];
       dc_enabledLayerCount := 0%N;
       dc_enabledExtensionCount := N.of_nat (length names);
       dc_enabledExtensionNames := names |} = (VK_SUCCESS, d) /\
  (forall x, x ∈ names ->
     x = VK_KHR_PORTABILITY_SUBSET_EXTENSION_NAME /\
     have_portability_subset (build w) = true).
Proof.
  intros H. simpl.
  destruct (debug_build (build w) && negb (truthy pd)) eqn:Hdbg.
  { unfold create_device, TORCH_INTERNAL_ASSERT_DEBUG_ONLY in H. run_m.
    simpl in H. rewrite Hdbg in H. discriminate H. }
  rewrite (create_device_unfold pd idx w Hdbg) in H. simpl in H.
  destruct (fst (vkEnumerateDeviceExtensionProperties_count (driver w) pd)
              =? VK_SUCCESS)%Z eqn:E1; simpl in H; [| discriminate H].
  destruct (fst (vkEnumerateDeviceExtensionProperties (driver w) pd _)
              =? VK_SUCCESS)%Z eqn:E2; simpl in H; [| discriminate H].
  match type of H with
  | context [vkCreateDevice (driver w) pd ?info] =>
      destruct (vkCreateDevice (driver w) pd info) as [r dev] eqn:E3
  end.
  simpl in H. destruct (r =? VK_SUCCESS)%Z eqn:Er; simpl in H; [| discriminate H].
  destruct (truthy dev); [| discriminate H].
  injection H as <- <-.
  apply Z.eqb_eq in E1, E2, Er. subst r.
  repeat (split; [assumption || reflexivity |]).
  intros x Hin.
  apply enable_device_extensions_elem in Hin. destruct Hin as [Hreq _].
  unfold requested_device_extensions in Hreq.
  destruct (have_portability_subset (build w)).
  - apply list_elem_of_singleton in Hreq. auto.
  - apply elem_of_nil in Hreq. contradiction.
Qed.

Lemma create_device_returns_the_created_device_witness :
  create_device 3%N 0%N (boot ok_driver good_adapter)
    = (Ok 7%N, boot ok_driver good_adapter) /\
  vkCreateDevice ok_driver 3%N
    {| dc_queueCreateInfos :=
         [ {| dq_queueFamilyIndex := 0%N; dq_queueCount := 1%N;
              dq_queuePriorities := [1] |} ];
       dc_enabledLayerCount := 0%N;
       dc_enabledExtensionCount := 1%N;
       dc_enabledExtensionNames := ["VK_KHR_portability_subset"] |}
    = (VK_SUCCESS, 7%N).
Proof.
  assert (E : create_device 3%N 0%N (boot ok_driver good_adapter)
              = (Ok 7%N, boot ok_driver good_adapter)) by reflexivity.
  split; [exact E |].
  destruct (create_device_returns_the_created_device _ _ _ _ _ E)
    as (_ & _ & _ & H & _).
  exact H.
Defined.

(** X3. [create_device] checks every result against [VK_SUCCESS] alone:
    when either enumeration of the device extensions reports another
    code, an error or a status such as [VK_INCOMPLETE], it raises with
    that code and the world unchanged, whatever [vkCreateDevice] would
    have answered. *)
Theorem create_device_raises_on_enumeration_failure
    (pd idx : N) (w : World) :
  debug_build (build w) && negb (truthy pd) = false ->
  let counted := vkEnumerateDeviceExtensionProperties_count (driver w) pd in
  let listed := vkEnumerateDeviceExtensionProperties (driver w) pd (snd counted) in
  (fst counted <> VK_SUCCESS ->
     create_device pd idx w = (Throw (VkCheckFailed (fst counted)), w)) /\
  (fst counted = VK_SUCCESS -> fst listed <> VK_SUCCESS ->
     create_device pd idx w = (Throw (VkCheckFailed (fst listed)), w)).
Proof.
  intros Hdbg. simpl. rewrite (create_device_unfold pd idx w Hdbg). simpl.
  split.
  - intros H. apply Z.eqb_neq in H. rewrite H. reflexivity.
  - intros H1 H2. apply Z.eqb_eq in H1. apply Z.eqb_neq in H2.
    rewrite H1. simpl. rewrite H2. reflexivity.
Qed.

Lemma create_device_raises_on_enumeration_failure_witness :
  create_device 3%N 0%N (boot incomplete_driver good_adapter)
    = (Throw (VkCheckFailed VK_INCOMPLETE), boot incomplete_driver good_adapter).
Proof.
  destruct (create_device_raises_on_enumeration_failure 3%N 0%N
              (boot incomplete_driver good_adapter) eq_refl) as [_ H].
  apply H; [reflexivity | discriminate].
Defined.

(** ** Construction through the adapter *)





(** ** [context()] and [available()] *)

(** X5. Once [context()] has returned the singleton, calling it again
    returns the same pointer and changes nothing at all: no event is
    logged, the adapter is not asked again, no handle is consumed. *)
Theorem context_is_idempotent (w : World) (p : N) (w1 : World) :
  context w = (Ok p, w1) ->
  p <> nullptr ->
  context w1 = (Ok p, w1) /\
  available w1 = (Ok true, w1).
Proof.
  intros Hc Hp.
  destruct (context_returns w p w1 Hc Hp) as (a & c & evs & -> & Hs & _).
  apply static_object_Some in Hs.
  pose proof (context_initialised w1 a c Hs) as E.
  split; [exact E |].
  unfold available. run_m. rewrite E. reflexivity.
Qed.

Lemma context_is_idempotent_witness :
  context (snd (context (boot ok_driver good_adapter)))
    = (Ok 2%N, snd (context (boot ok_driver good_adapter))).
Proof.
  assert (Hp : 2%N <> nullptr) by discriminate.
  destruct (context_is_idempotent (boot ok_driver good_adapter) 2%N
              (snd (context (boot ok_driver good_adapter))) eq_refl Hp)
    as [H _].
  exact H.
Defined.

Lemma wrapped_error_differs (e : Error) : ContextInitFailed e <> e.
Proof.
  induction e as [r | msg | msg | e IH | | |]; try discriminate.
  intros E. injection E as E. exact (IH E).
Qed.

(** X6. With the static uninitialised, [context()] never lets the error
    of the constructor through as it is: what it raises is the
    initialisation failure wrapping the caught standard exception, or
    the "Unknown" failure for any other throw; the static stays
    uninitialised, and [available()] raises the very same error. *)
Theorem context_wraps_every_construction_error (w : World) (e : Error) :
  context_static w = None ->
  fst (context w) = Throw e ->
  exists cause,
    construction_failure (runtime w) = Some cause /\
    e = (if is_std_exception cause
         then ContextInitFailed cause else ContextInitFailedUnknown) /\
    e <> cause /\
    context_static (snd (context w)) = None /\
    fst (available w) = Throw e.
Proof.
  intros Hs He.
  destruct (construction_failure (runtime w)) as [cause |] eqn:Hf.
  - destruct (context_fails w cause Hs Hf) as (evs & Hc & _).
    rewrite Hc in He. simpl in He. injection He as <-.
    exists cause. split; [reflexivity |]. split; [reflexivity |].
    split; [| split].
    + unfold fatal. destruct (is_std_exception cause) eqn:Hstd.
      * apply wrapped_error_differs.
      * destruct cause; discriminate.
    + rewrite Hc. exact Hs.
    + unfold available. run_m. rewrite Hc. reflexivity.
  - destruct (context_constructs w Hs Hf) as (a & c & w' & Hc & _).
    rewrite Hc in He. discriminate He.
Qed.

Lemma context_wraps_every_construction_error_witness :
  exists cause,
    construction_failure (runtime (boot lost_driver failing_adapter)) = Some cause /\
    ContextInitFailed (VkCheckFailed VK_ERROR_INITIALIZATION_FAILED)
      = (if is_std_exception cause
         then ContextInitFailed cause else ContextInitFailedUnknown) /\
    ContextInitFailed (VkCheckFailed VK_ERROR_INITIALIZATION_FAILED) <> cause /\
    context_static (snd (context (boot lost_driver failing_adapter))) = None /\
    fst (available (boot lost_driver failing_adapter))
      = Throw (ContextInitFailed (VkCheckFailed VK_ERROR_INITIALIZATION_FAILED)).
Proof.
  apply (context_wraps_every_construction_error
           (boot lost_driver failing_adapter)
           (ContextInitFailed (VkCheckFailed VK_ERROR_INITIALIZATION_FAILED)));
    reflexivity.
Defined.

Lemma exec_bool (c : Call) (w : World) (b : bool) :
  Inv w ->
  fst (exec c w) = Ok (VBool b) ->
  b = true /\ exists p, p <> nullptr /\ owner (snd (exec c w)) p.
Proof.
  intros HI E.
  destruct c as [| | t | t src | t cb sig sd lwg | cb s g]; simpl in E.
  - run_m. destruct (context w) as [[p | e] w1]; discriminate E.
  - simpl. unfold available in *. run_m.
    destruct (context_Inv w HI) as [HI1 Ho1].
    destruct (context w) as [[p | e] w1]; simpl in *; [| discriminate E].
    injection E as <-.
    destruct (owner_Inv_news w1 p HI1 (Ho1 p eq_refl)) as [_ Hp].
    split; [apply truthy_nonnull; exact Hp |].
    exists p. split; [exact Hp | apply Ho1; reflexivity].
  - run_m. destruct (context w) as [[p | e] w1]; [| discriminate E].
    destruct (deref p w1) as [[self | e] w2]; [| discriminate E].
    destruct (Context_flush self t w2) as [[[] | e] w3]; discriminate E.
  - run_m. destruct (context w) as [[p | e] w1]; [| discriminate E].
    destruct (deref p w1) as [[self | e] w2]; [| discriminate E].
    destruct (Context_wait self t src w2) as [[[] | e] w3]; discriminate E.
  - run_m.
    destruct (dispatch_prologue t cb sig sd lwg w) as [[s | e] w1];
      discriminate E.
  - discriminate E.
Qed.

(** X7. In a process that starts with the static uninitialised,
    [available()] never answers [false], whatever calls came before it:
    it answers [true] or raises.  And once it has answered [true], the
    singleton exists then and for the rest of the run: [context()] at the
    end of the run returns it, non-null, without constructing anything. *)
Theorem available_answers_true_or_raises
    (w : World) (cs : list Call) (j : nat) (b : bool) :
  initial w ->
  fst (run cs w) !! j = Some (Ok (VBool b)) ->
  b = true /\
  exists p, p <> nullptr /\ context (snd (run cs w)) = (Ok p, snd (run cs w)).
Proof.
  intros Hi. pose proof (initial_Inv w Hi) as HI. clear Hi.
  revert w j HI. induction cs as [| c cs IH]; intros w j HI E; simpl in *.
  - destruct j; discriminate E.
  - destruct (exec_Inv c w HI) as [HI1 _]. destruct j as [| j]; simpl in E.
    + injection E as E.
      destruct (exec_bool c w b HI E) as (Hb & p & Hp & Ho).
      split; [exact Hb |]. exists p. split; [exact Hp |].
      apply context_owner. apply run_owner. exact Ho.
    + exact (IH _ j HI1 E).
Qed.

Lemma available_answers_true_or_raises_witness :
  exists p, p <> nullptr /\
    context (snd (run [CallAvailable; CallFlush 1] (boot ok_driver good_adapter)))
      = (Ok p, snd (run [CallAvailable; CallFlush 1] (boot ok_driver good_adapter))).
Proof.
  assert (Hi : initial (boot ok_driver good_adapter)) by (split; reflexivity).
  destruct (available_answers_true_or_raises (boot ok_driver good_adapter)
              [CallAvailable; CallFlush 1] 0%nat true Hi eq_refl) as [_ H].
  exact H.
Defined.

(** ** What the operations leave alone *)

Lemma preserves_ret {A B} (f : World -> B) (a : A) : preserves f (ret a).
Proof. intros w. reflexivity. Qed.

Lemma preserves_throw {A B} (f : World -> B) (e : Error) : preserves f (@throw A e).
Proof. intros w. reflexivity. Qed.

Lemma preserves_get {B} (f : World -> B) : preserves f get.
Proof. intros w. reflexivity. Qed.

Lemma preserves_bind {A C B} (f : World -> B) (m : M A) (k : A -> M C) :
  preserves f m -> (forall a, preserves f (k a)) -> preserves f (m ≫= k).
Proof.
  intros Hm Hk w. run_m. specialize (Hm w).
  destruct (m w) as [[a | e] w1]; simpl in *.
  - rewrite (Hk a w1). exact Hm.
  - exact Hm.
Qed.

Lemma preserves_try_catch {A B} (f : World -> B) (m : M A) (h : Error -> M A) :
  preserves f m -> (forall e, preserves f (h e)) -> preserves f (try_catch m h).
Proof.
  intros Hm Hh w. unfold try_catch. specialize (Hm w).
  destruct (m w) as [[a | e] w1]; simpl in *.
  - exact Hm.
  - rewrite (Hh e w1). exact Hm.
Qed.

Lemma preserves_modify {B} (f : World -> B) (g : World -> World) :
  (forall w, f (g w) = f w) -> preserves f (modify g).
Proof. intros H w. apply H. Qed.

Lemma preserves_env_update_object (g : Context -> Context) :
  preserves env (update_object g).
Proof.
  apply preserves_modify. intros w.
  destruct (static_object w) as [[a c] |]; reflexivity.
Qed.

Lemma preserves_tenancy_update_object (g : Context -> Context) :
  (forall c, adapter_i_ (g c) = adapter_i_ c /\ queue_ (g c) = queue_ c) ->
  preserves tenancy (update_object g).
Proof.
  intros Hg. apply preserves_modify. intros w. unfold static_object, tenancy.
  destruct (context_static w) as [[[a c] |] |] eqn:E; simpl; rewrite ?E;
    try reflexivity.
  destruct (Hg c) as [-> ->]. reflexivity.
Qed.

Ltac pres_step :=
  match goal with
  | |- preserves _ (mbind _ _) => apply preserves_bind; [| intros ?]
  | |- preserves _ (try_catch _ _) => apply preserves_try_catch; [| intros ?]
  | |- preserves _ (ret _) => apply preserves_ret
  | |- preserves _ (mret _) => apply preserves_ret
  | |- preserves _ (throw _) => apply preserves_throw
  | |- preserves _ get => apply preserves_get
  | |- preserves env (update_object _) => apply preserves_env_update_object
  | |- preserves tenancy (update_object _) =>
      apply preserves_tenancy_update_object; intros ?; split; reflexivity
  | |- preserves _ (emit _) => apply preserves_modify; intros ?; reflexivity
  | |- preserves _ (modify _) => apply preserves_modify; intros ?; reflexivity
  | |- preserves _ (if ?b then _ else _) => destruct b
  | |- preserves _ (match ?x with _ => _ end) => destruct x
  end.

Ltac pres_unfold :=
  unfold dispatch_epilogue, prologue_body, Context_wait, Context_flush,
    shader_layout_cache_retrieve, shader_cache_retrieve,
    pipeline_layout_cache_retrieve, pipeline_cache_retrieve, Cache_retrieve,
    Buffer_bind_pipeline, Buffer_bind_set, Buffer_dispatch, record,
    DescriptorPool_allocate, CommandPool_stream, vTensor_host, Future_wait,
    queue_wait_idle, Pool_purge, native, fresh_handle, deref, VK_CHECK,
    TORCH_INTERNAL_ASSERT_DEBUG_ONLY, TORCH_CHECK, TORCH_CHECK_as.

Ltac pres_solve := pres_unfold; repeat pres_step.

Lemma env_Context_flush self t : preserves env (Context_flush self t).
Proof. pres_solve. Qed.

Lemma env_Context_wait self t src : preserves env (Context_wait self t src).
Proof. pres_solve. Qed.

Lemma env_prologue_body t cb sig sd lwg p :
  preserves env (prologue_body t cb sig sd lwg p).
Proof. pres_solve. Qed.

Lemma env_dispatch_epilogue cb s g : preserves env (dispatch_epilogue cb s g).
Proof. pres_solve. Qed.

Lemma env_context : preserves env context.
Proof.
  unfold context, context_initializer, new_Context, Context_ctor,
    Adapter_device_handle, Adapter_request_queue.
  pres_solve.
Qed.

Lemma env_dispatch_prologue t cb sig sd lwg :
  preserves env (dispatch_prologue t cb sig sd lwg).
Proof.
  intros w. unfold dispatch_prologue. fold (prologue_body t cb sig sd lwg).
  apply preserves_bind; [apply env_context | intros p; apply env_prologue_body].
Qed.

Lemma tenancy_Context_flush self t : preserves tenancy (Context_flush self t).
Proof. pres_solve. Qed.

Lemma tenancy_Context_wait self t src : preserves tenancy (Context_wait self t src).
Proof. pres_solve. Qed.

Lemma tenancy_deref p : preserves tenancy (deref p).
Proof. pres_solve. Qed.

Lemma tenancy_prologue_body t cb sig sd lwg p :
  preserves tenancy (prologue_body t cb sig sd lwg p).
Proof. pres_solve. Qed.

Lemma tenancy_dispatch_epilogue cb s g :
  preserves tenancy (dispatch_epilogue cb s g).
Proof. pres_solve. Qed.

(** ** The queue lease over the life of the process *)

Lemma context_constructs_lease (w : World) :
  context_static w = None ->
  construction_failure (runtime w) = None ->
  exists a c w',
    context w = (Ok (ptr_of_addr a), w') /\
    context_static w' = Some (Some (a, c)) /\
    leases w' = (adapter_i_ c, queue_ c) :: leases w.
Proof.
  intros Hs Hf. unfold construction_failure in Hf.
  set (i := rt_default_adapter_i (runtime w)) in *.
  destruct (adapter_device_handle (rt_get_adapter (runtime w) i))
    as [d | e'] eqn:Hd; [| discriminate Hf].
  destruct (adapter_request_queue (rt_get_adapter (runtime w) i))
    as [q | e'] eqn:Hq; [| discriminate Hf].
  unfold context, context_initializer, new_Context, fresh_handle,
    TORCH_INTERNAL_ASSERT_DEBUG_ONLY.
  unfold Context_ctor, Adapter_device_handle, Adapter_request_queue.
  run_m. rewrite Hs. simpl. fold i. rewrite Hd. simpl. rewrite Hq. simpl.
  rewrite andb_false_r. eexists _, _, _. split; [reflexivity |].
  simpl. split; reflexivity.
Qed.

Lemma context_balanced (base : list (nat * N)) (w : World) :
  balanced base (tenancy w) -> balanced base (tenancy (snd (context w))).
Proof.
  unfold balanced, tenancy. simpl. intros Hb.
  destruct (context_static w) as [[[a c] |] |] eqn:Hs; [| contradiction |].
  - rewrite (context_initialised w a c Hs). simpl. rewrite Hs. exact Hb.
  - destruct (construction_failure (runtime w)) as [e |] eqn:Hf.
    + destruct (context_fails w e Hs Hf) as (evs & -> & _). simpl.
      rewrite Hs. exact Hb.
    + destruct (context_constructs_lease w Hs Hf) as (a & c & w' & -> & Hs' & Hl).
      simpl. rewrite Hs', Hl, Hb. reflexivity.
Qed.

Lemma bind_context_balanced {A} (base : list (nat * N)) (k : N -> M A) (w : World) :
  (forall p, preserves tenancy (k p)) ->
  balanced base (tenancy w) ->
  balanced base (tenancy (snd ((context ≫= k) w))).
Proof.
  intros Hk Hb. apply context_balanced in Hb. run_m.
  destruct (context w) as [[p | e] w1]; simpl in *; [| exact Hb].
  rewrite (Hk p w1). exact Hb.
Qed.

Lemma exec_balanced (base : list (nat * N)) (c : Call) (w : World) :
  balanced base (tenancy w) -> balanced base (tenancy (snd (exec c w))).
Proof.
  intros Hb.
  destruct c as [| | t | t src | t cb sig sd lwg | cb s g]; cbn [exec].
  - apply bind_context_balanced; [| exact Hb]. intros p. pres_solve.
  - unfold available.
    assert (E : forall w,
               ((context ≫= fun p => ret (truthy p)) ≫= fun b => ret (VBool b)) w
               = (context ≫= fun p => ret (VBool (truthy p))) w).
    { intros w0. run_m. destruct (context w0) as [[p | e] w1]; reflexivity. }
    rewrite E. apply bind_context_balanced; [| exact Hb]. intros p. pres_solve.
  - apply bind_context_balanced; [| exact Hb]. intros p.
    apply preserves_bind; [apply tenancy_deref | intros self].
    apply preserves_bind; [apply tenancy_Context_flush | intros ?; pres_solve].
  - apply bind_context_balanced; [| exact Hb]. intros p.
    apply preserves_bind; [apply tenancy_deref | intros self].
    apply preserves_bind; [apply tenancy_Context_wait | intros ?; pres_solve].
  - assert (E : forall w,
               (dispatch_prologue t cb sig sd lwg ≫= fun s => ret (VSet s)) w
               = (context ≫= fun p =>
                    prologue_body t cb sig sd lwg p ≫= fun s => ret (VSet s)) w).
    { intros w0. unfold dispatch_prologue. fold (prologue_body t cb sig sd lwg).
      run_m. destruct (context w0) as [[p | e] w1]; reflexivity. }
    rewrite E. apply bind_context_balanced; [| exact Hb]. intros p.
    apply preserves_bind; [apply tenancy_prologue_body | intros ?; pres_solve].
  - assert (H : preserves tenancy
                  (dispatch_epilogue cb s g ≫= fun _ => ret VUnit)).
    { apply preserves_bind; [apply tenancy_dispatch_epilogue | intros ?; pres_solve]. }
    rewrite (H w). exact Hb.
Qed.

Lemma run_balanced (base : list (nat * N)) (cs : list Call) (w : World) :
  balanced base (tenancy w) -> balanced base (tenancy (snd (run cs w))).
Proof.
  revert w. induction cs as [| c cs IH]; intros w Hb; simpl; [exact Hb |].
  apply IH. apply exec_balanced. exact Hb.
Qed.

(** X8. Over any client run of a process that starts with the static
    uninitialised, the adapter's leases are those it started with plus at
    most one, the queue the constructed singleton holds; failed
    construction attempts leave no lease behind; and static destruction
    at process exit returns that one lease, so that the leases after exit
    are exactly the leases before the run. *)
Theorem queue_lease_is_balanced_over_the_process (w : World) (cs : list Call) :
  context_static w = None ->
  (match context_static (snd (run cs w)) with
   | Some (Some (_, c)) =>
       leases (snd (run cs w)) = (adapter_i_ c, queue_ c) :: leases w
   | _ => leases (snd (run cs w)) = leases w
   end) /\
  leases (snd (process_exit (snd (run cs w)))) = leases w.
Proof.
  intros Hs.
  assert (Hb : balanced (leases w) (tenancy w)).
  { unfold balanced, tenancy. simpl. rewrite Hs. reflexivity. }
  apply (run_balanced _ cs) in Hb.
  unfold balanced, tenancy in Hb. simpl in Hb.
  unfold process_exit, Context_dtor, Adapter_return_queue. run_m.
  destruct (context_static (snd (run cs w))) as [[[a c] |] |];
    [| contradiction |]; simpl.
  - split; [exact Hb |]. rewrite Hb. apply remove_first_head.
  - split; exact Hb.
Qed.

Lemma queue_lease_is_balanced_over_the_process_witness :
  leases (snd (run [CallContext; CallFlush 1] (boot ok_driver good_adapter)))
    = [(0%nat, 9%N)] /\
  leases (snd (process_exit
                 (snd (run [CallContext; CallFlush 1]
                         (boot ok_driver good_adapter))))) = [].
Proof.
  destruct (queue_lease_is_balanced_over_the_process
              (boot ok_driver good_adapter) [CallContext; CallFlush 1] eq_refl)
    as [_ H].
  split; [reflexivity | exact H].
Defined.

(** ** More on [flush] and [wait] *)

Lemma static_Context_flush self t : preserves context_static (Context_flush self t).
Proof. pres_solve. Qed.

Lemma leases_Context_flush self t : preserves leases (Context_flush self t).
Proof. pres_solve. Qed.

Lemma buffers_Context_flush self t : preserves buffers (Context_flush self t).
Proof. pres_solve. Qed.

(** X9. [flush] reclaims pools and nothing else: whether the idle wait
    succeeds or not, the singleton with all its cached layouts, shaders
    and pipelines is what it was, and so are the adapter's leases; work
    outstanding on any other queue stays outstanding, no work appears,
    and when the wait fails no work is retired at all. *)
Theorem flush_keeps_caches_leases_and_other_queues
    (self : Context) (t : nat) (w : World) :
  context_static (snd (Context_flush self t w)) = context_static w /\
  leases (snd (Context_flush self t w)) = leases w /\
  (forall s, s ∈ submitted w -> snd s <> queue_ self ->
             s ∈ submitted (snd (Context_flush self t w))) /\
  (forall s, s ∈ submitted (snd (Context_flush self t w)) -> s ∈ submitted w) /\
  (fst (Context_flush self t w) <> Ok tt ->
   submitted (snd (Context_flush self t w)) = submitted w).
Proof.
  split; [apply static_Context_flush | split; [apply leases_Context_flush |]].
  destruct (Z.eq_dec (vkQueueWaitIdle (driver w) (queue_ self)) VK_SUCCESS)
    as [Hs | Hf].
  - destruct (flush_success self t w Hs) as (Hr & _ & Hq & _).
    rewrite Hq. split; [| split].
    + intros s Hin Hne. apply list_elem_of_In, filter_In.
      split; [apply list_elem_of_In; exact Hin |].
      apply negb_true_iff, N.eqb_neq. exact Hne.
    + intros s Hin. apply list_elem_of_In, filter_In in Hin.
      apply list_elem_of_In. tauto.
    + intros Hne. contradiction.
  - destruct (flush_failure self t w Hf) as (_ & _ & _ & Hq).
    rewrite Hq. auto.
Qed.

Lemma flush_keeps_caches_leases_and_other_queues_witness :
  context_static (snd (Context_flush sample_context 1 busy_world))
    = context_static busy_world /\
  leases (snd (Context_flush sample_context 1 busy_world)) = [(0%nat, 9%N)].
Proof.
  destruct (flush_keeps_caches_leases_and_other_queues sample_context 1 busy_world)
    as (Hs & Hl & _).
  split; [exact Hs | exact Hl].
Defined.

Lemma preserves_emit_log {B} (pr : list Event -> B) (e : Event) :
  (forall l, pr (l ++ [e]) = pr l) ->
  preserves (fun w => pr (log w)) (emit e).
Proof. intros H w. apply H. Qed.

Lemma purges_app (l1 l2 : list Event) : purges (l1 ++ l2) = purges l1 ++ purges l2.
Proof. apply omap_app. Qed.

Lemma idle_waits_app (l1 l2 : list Event) :
  idle_waits (l1 ++ l2) = idle_waits l1 ++ idle_waits l2.
Proof. apply omap_app. Qed.

Ltac pres_log_step :=
  match goal with
  | |- preserves _ (emit _) =>
      apply (preserves_emit_log (fun l => (purges l, idle_waits l)));
      intros ?; rewrite purges_app, idle_waits_app; simpl;
      rewrite !app_nil_r; reflexivity
  | _ => pres_step
  end.

Lemma wait_logs_no_purge_no_idle self t src :
  preserves (fun w => (purges (log w), idle_waits (log w)))
    (Context_wait self t src).
Proof. pres_unfold. repeat pres_log_step. Qed.

Lemma static_Context_wait self t src :
  preserves context_static (Context_wait self t src).
Proof. pres_solve. Qed.

Lemma leases_Context_wait self t src : preserves leases (Context_wait self t src).
Proof. pres_solve. Qed.

(** X11. [wait] is no [flush]: on any tensor and whatever its outcome, it
    purges no pool and does not idle the queue, and it leaves the
    singleton with its caches, the adapter's leases and the pools of every
    other thread as they were. *)
Theorem wait_never_purges_nor_idles
    (self : Context) (t : nat) (src : Tensor) (w : World) :
  purges (log (snd (Context_wait self t src w))) = purges (log w) /\
  idle_waits (log (snd (Context_wait self t src w))) = idle_waits (log w) /\
  context_static (snd (Context_wait self t src w)) = context_static w /\
  leases (snd (Context_wait self t src w)) = leases w /\
  (forall u, u <> t -> tls (snd (Context_wait self t src w)) !! u = tls w !! u).
Proof.
  pose proof (wait_logs_no_purge_no_idle self t src w) as Hl.
  injection Hl as Hp Hi.
  repeat (split; [assumption
                 || apply static_Context_wait || apply leases_Context_wait |]).
  intros u Hne.
  assert (H : preserves (fun w => tls w !! u) (Context_wait self t src)).
  { pres_unfold. repeat pres_step.
    apply preserves_modify. intros w0. simpl.
    apply lookup_insert_ne. congruence. }
  apply (H w).
Qed.

(** ** More on the dispatch protocol *)

Lemma bind_Ok_inv {A B} (m : M A) (k : A -> M B) (w : World) (b : B) (w' : World) :
  (m ≫= k) w = (Ok b, w') ->
  exists a w1, m w = (Ok a, w1) /\ k a w1 = (Ok b, w').
Proof.
  run_m. destruct (m w) as [[a | e] w1]; [| discriminate].
  intros H. exists a, w1. auto.
Qed.

Lemma allocate_next_handle (t : nat) (layout : ShaderLayout) (w : World)
    (s : DescriptorSet) (w' : World) :
  DescriptorPool_allocate t layout w = (Ok s, w') ->
  next_handle w' = ds_handle s /\ (next_handle w < ds_handle s)%N.
Proof.
  unfold DescriptorPool_allocate, native, fresh_handle, VK_CHECK. run_m. simpl.
  destruct (vkNative (driver w) NcAllocateDescriptorSets =? VK_SUCCESS)%Z;
    simpl; [| discriminate].
  intros H. injection H as <- <-. simpl. split; [reflexivity | lia].
Qed.

Lemma prologue_next_handle (t : nat) (cb : N) (sig : list N) (sd : N)
    (lwg : WorkGroup) (w : World) (s : DescriptorSet) (w' : World) :
  dispatch_prologue t cb sig sd lwg w = (Ok s, w') ->
  next_handle w' = ds_handle s.
Proof.
  unfold dispatch_prologue. intros H.
  do 6 (apply bind_Ok_inv in H; destruct H as (? & ? & _ & H)).
  apply allocate_next_handle in H. tauto.
Qed.

Lemma Cache_retrieve_hit `{Countable K} (kind : CacheKind) (call : NativeCall)
    (read : Context -> gmap K N) (write : gmap K N -> Context -> Context)
    (a : positive) (c : Context) (key : K) (h : N) (w : World) :
  static_object w = Some (a, c) ->
  read c !! key = Some h ->
  Cache_retrieve kind call read write (ptr_of_addr a) key w
    = (Ok h, set_log (log w ++ [EvRetrieve kind true]) w).
Proof.
  intros Hs Hk. unfold Cache_retrieve, deref. run_m. rewrite Hs.
  simpl. rewrite Pos.eqb_refl, Hk. reflexivity.
Qed.

Lemma prologue_body_hit (t : nat) (cb : N) (sig : list N) (sd : N)
    (lwg : WorkGroup) (a : positive) (c : Context) (dsl pl sm ph : N)
    (w : World) :
  static_object w = Some (a, c) ->
  shader_layout_cache (shader_ c) !! sig = Some dsl ->
  pipeline_layout_cache (pipeline_ c) !! dsl = Some pl ->
  shader_cache (shader_ c) !! sd = Some sm ->
  pipeline_cache (pipeline_ c) !! (pl, sm, wg_key lwg) = Some ph ->
  vkNative (driver w) NcAllocateDescriptorSets = VK_SUCCESS ->
  exists w',
    prologue_body t cb sig sd lwg (ptr_of_addr a) w =
      (Ok {| ds_handle := N.succ (next_handle w); ds_signature := sig;
             ds_bindings := [] |}, w') /\
    log w' = log w ++
      [EvRetrieve ShaderLayoutCache true; EvRetrieve PipelineLayoutCache true;
       EvRetrieve ShaderCache true; EvRetrieve PipelineCache true;
       EvNative NcAllocateDescriptorSets VK_SUCCESS] /\
    context_static w' = context_static w /\
    buffers w' =
      <[cb := buffer_contents w cb ++
              [CmdBindPipeline {| po_handle := ph; po_layout := pl;
                                  po_local_work_group := lwg |}]]> (buffers w).
Proof.
  intros Hs K1 K2 K3 K4 Ha.
  unfold prologue_body, shader_layout_cache_retrieve,
    pipeline_layout_cache_retrieve, shader_cache_retrieve,
    pipeline_cache_retrieve, Buffer_bind_pipeline, record,
    DescriptorPool_allocate, native, fresh_handle, VK_CHECK.
  run_m.
  rewrite (Cache_retrieve_hit ShaderLayoutCache _ _ _ a c sig dsl w Hs K1).
  simpl.
  match goal with
  | |- context [Cache_retrieve PipelineLayoutCache ?cl ?rd ?wr _ _ ?w1] =>
      rewrite (Cache_retrieve_hit PipelineLayoutCache cl rd wr a c dsl pl w1 Hs K2)
  end.
  match goal with
  | |- context [Cache_retrieve ShaderCache ?cl ?rd ?wr _ _ ?w1] =>
      rewrite (Cache_retrieve_hit ShaderCache cl rd wr a c sd sm w1 Hs K3)
  end.
  unfold pd_key. simpl.
  match goal with
  | |- context [Cache_retrieve PipelineCache ?cl ?rd ?wr _ _ ?w1] =>
      rewrite (Cache_retrieve_hit PipelineCache cl rd wr a c
                 (pl, sm, wg_key lwg) ph w1 Hs K4)
  end.
  simpl. rewrite Ha. simpl.
  eexists. split; [reflexivity |]. simpl. rewrite <- !app_assoc.
  repeat split.
Qed.

(** X13. Identical prologue arguments resolve to the identical pipeline:
    after a prologue has returned, a further prologue with the same layout
    signature, shader descriptor and local work-group size, from any
    thread into any command stream, finds all four objects cached, asks
    the driver for nothing but the descriptor set, leaves the caches as
    they are, binds the very same pipeline object as the first call, and
    returns a descriptor set with a different handle. *)
Theorem repeated_prologue_reuses_the_cached_pipeline
    (t t' : nat) (cb cb' : N) (sig : list N) (sd : N) (lwg : WorkGroup)
    (w : World) (p : N) (w0 : World) :
  context w = (Ok p, w0) ->
  p <> nullptr ->
  (forall call, vkNative (driver w) call = VK_SUCCESS) ->
  exists set1 w1 set2 w2 pipe,
    dispatch_prologue t cb sig sd lwg w = (Ok set1, w1) /\
    dispatch_prologue t' cb' sig sd lwg w1 = (Ok set2, w2) /\
    new_events w1 w2 =
      [EvRetrieve ShaderLayoutCache true; EvRetrieve PipelineLayoutCache true;
       EvRetrieve ShaderCache true; EvRetrieve PipelineCache true;
       EvNative NcAllocateDescriptorSets VK_SUCCESS] /\
    context_static w2 = context_static w1 /\
    recorded w w1 cb = [CmdBindPipeline pipe] /\
    buffer_contents w2 cb' = buffer_contents w1 cb' ++ [CmdBindPipeline pipe] /\
    ds_handle set2 <> ds_handle set1.
Proof.
  intros Hc Hp Hd.
  destruct (dispatch_prologue_ok t cb sig sd lwg w p w0 Hc Hp Hd)
    as (set1 & pipe & w1 & a & c1 & dsl & sm & evs & E & _ & _ & -> & S1 & K1
        & K2 & K3 & K4 & Hl & Hb & _).
  pose proof (env_dispatch_prologue t cb sig sd lwg w) as He.
  rewrite E in He. unfold env in He. simpl in He. injection He as Hdr _ _.
  assert (Ha : vkNative (driver w1) NcAllocateDescriptorSets = VK_SUCCESS)
    by (rewrite Hdr; apply Hd).
  destruct (prologue_body_hit t' cb' sig sd lwg a c1 dsl (po_layout pipe) sm
              (po_handle pipe) w1 S1 K1 K2 K3 K4 Ha)
    as (w2 & E2 & L2 & S2 & B2).
  assert (Hc1 : context w1 = (Ok (ptr_of_addr a), w1))
    by (apply (context_initialised w1 a c1); apply static_object_Some; exact S1).
  assert (Hpipe : {| po_handle := po_handle pipe; po_layout := po_layout pipe;
                     po_local_work_group := lwg |} = pipe)
    by (destruct pipe; simpl in *; congruence).
  rewrite Hpipe in B2.
  eexists set1, w1, _, w2, pipe.
  split; [exact E |].
  split; [rewrite (dispatch_prologue_context _ _ _ _ _ _ _ _ Hc1); exact E2 |].
  split; [apply new_events_app; exact L2 |].
  split; [exact S2 |].
  split.
  { apply recorded_app. rewrite (buffer_contents_insert _ _ _ cb _ Hb).
    destruct (decide (cb = cb)); [reflexivity | contradiction]. }
  split.
  { rewrite (buffer_contents_insert _ _ _ cb' _ B2).
    destruct (decide (cb' = cb')); [reflexivity | contradiction]. }
  simpl. rewrite (prologue_next_handle _ _ _ _ _ _ _ _ E). lia.
Qed.

Lemma repeated_prologue_reuses_the_cached_pipeline_witness :
  natives (new_events
    (snd (dispatch_prologue 1 30%N [7%N; 7%N] 99%N (wg 4 4 1) busy_world))
    (snd (dispatch_prologue 2 31%N [7%N; 7%N] 99%N (wg 4 4 1)
            (snd (dispatch_prologue 1 30%N [7%N; 7%N] 99%N (wg 4 4 1) busy_world)))))
  = [NcAllocateDescriptorSets].
Proof.
  assert (Hp : 5%N <> nullptr) by discriminate.
  assert (Hd : forall call, vkNative (driver busy_world) call = VK_SUCCESS)
    by reflexivity.
  destruct (repeated_prologue_reuses_the_cached_pipeline 1 2 30%N 31%N
              [7%N; 7%N] 99%N (wg 4 4 1) busy_world 5%N busy_world eq_refl Hp Hd)
    as (set1 & w1 & set2 & w2 & pipe & E1 & E2 & Hn & _).
  rewrite E1. cbn [snd]. rewrite E2. cbn [snd]. rewrite Hn. reflexivity.
Defined.

Lemma context_fails_events (w : World) (e : Error) :
  context_static w = None ->
  construction_failure (runtime w) = Some e ->
  exists evs,
    context w = (Throw (fatal e), set_log (log w ++ evs) w) /\
    (evs = [EvDeviceHandle (rt_default_adapter_i (runtime w))] \/
     evs = [EvDeviceHandle (rt_default_adapter_i (runtime w));
            EvRequestQueue (rt_default_adapter_i (runtime w))]).
Proof.
  intros Hs Hf. unfold construction_failure in Hf.
  set (i := rt_default_adapter_i (runtime w)) in *.
  assert (Hc : exists evs,
             Context_ctor (rt_instance (runtime w)) i w
               = (Throw e, set_log (log w ++ evs) w) /\
             (evs = [EvDeviceHandle i] \/
              evs = [EvDeviceHandle i; EvRequestQueue i])).
  { destruct (adapter_device_handle (rt_get_adapter (runtime w) i))
      as [d | e'] eqn:Hd.
    - destruct (adapter_request_queue (rt_get_adapter (runtime w) i))
        as [q | e'] eqn:Hq; [discriminate Hf |].
      injection Hf as ->. eexists.
      split; [apply (ctor_queue_raises _ _ _ _ _ Hd Hq) | right; reflexivity].
    - injection Hf as ->. eexists.
      split; [apply (ctor_device_raises _ _ _ _ Hd) | left; reflexivity]. }
  destruct Hc as (evs & Hc & Hev). exists evs. split; [| exact Hev].
  unfold context, context_initializer, new_Context, TORCH_CHECK_as, fatal.
  run_m. rewrite Hs. simpl. fold i. rewrite Hc.
  destruct (is_std_exception e); reflexivity.
Qed.

(** X14. Without a context there is no dispatch: when the static is
    uninitialised and the adapter fails, [dispatch_prologue] raises the
    initialisation failure of [context()] before it resolves, binds or
    allocates anything: no cache is consulted, the driver is not called,
    the command stream and every pool are as they were, and the static is
    still uninitialised. *)
Theorem prologue_without_context_does_nothing
    (t : nat) (cb : N) (sig : list N) (sd : N) (lwg : WorkGroup)
    (w : World) (e : Error) :
  context_static w = None ->
  construction_failure (runtime w) = Some e ->
  fst (dispatch_prologue t cb sig sd lwg w) = Throw (fatal e) /\
  retrievals (new_events w (snd (dispatch_prologue t cb sig sd lwg w))) = [] /\
  natives (new_events w (snd (dispatch_prologue t cb sig sd lwg w))) = [] /\
  buffers (snd (dispatch_prologue t cb sig sd lwg w)) = buffers w /\
  tls (snd (dispatch_prologue t cb sig sd lwg w)) = tls w /\
  context_static (snd (dispatch_prologue t cb sig sd lwg w)) = None.
Proof.
  intros Hs Hf.
  destruct (context_fails_events w e Hs Hf) as (evs & Hc & Hev).
  assert (E : dispatch_prologue t cb sig sd lwg w
              = (Throw (fatal e), set_log (log w ++ evs) w)).
  { unfold dispatch_prologue. run_m. rewrite Hc. reflexivity. }
  rewrite E. simpl.
  rewrite (new_events_app w (set_log (log w ++ evs) w) evs eq_refl).
  destruct Hev as [-> | ->]; repeat split; assumption.
Qed.

Lemma prologue_without_context_does_nothing_witness :
  fst (dispatch_prologue 1 30%N [7%N] 99%N (wg 4 4 1)
         (boot ok_driver failing_adapter))
    = Throw (ContextInitFailed (VkCheckFailed VK_ERROR_INITIALIZATION_FAILED)) /\
  buffers (snd (dispatch_prologue 1 30%N [7%N] 99%N (wg 4 4 1)
                  (boot ok_driver failing_adapter))) = ∅.
Proof.
  destruct (prologue_without_context_does_nothing 1 30%N [7%N] 99%N (wg 4 4 1)
              (boot ok_driver failing_adapter)
              (VkCheckFailed VK_ERROR_INITIALIZATION_FAILED) eq_refl eq_refl)
    as (Hr & _ & _ & Hb & _).
  split; [exact Hr | exact Hb].
Defined.

(** X15. The pipeline is bound before the descriptor set is allocated, and
    a raise does not undo what was recorded: when the four objects can be
    resolved but the driver refuses the descriptor set with result [r],
    [dispatch_prologue] raises with [r] after the binding of the resolved
    pipeline has gone into the command stream; the resolved objects stay
    cached, and the calling thread's pools have not changed. *)
Theorem prologue_allocation_failure_leaves_the_pipeline_bound
    (t : nat) (cb : N) (sig : list N) (sd : N) (lwg : WorkGroup)
    (a : positive) (c : Context) (w : World) :
  static_object w = Some (a, c) ->
  (forall call, call <> NcAllocateDescriptorSets ->
                vkNative (driver w) call = VK_SUCCESS) ->
  vkNative (driver w) NcAllocateDescriptorSets <> VK_SUCCESS ->
  exists pipe w1 c1 dsl sm,
    dispatch_prologue t cb sig sd lwg w =
      (Throw (VkCheckFailed (vkNative (driver w) NcAllocateDescriptorSets)), w1) /\
    recorded w w1 cb = [CmdBindPipeline pipe] /\
    po_local_work_group pipe = lwg /\
    tls w1 = tls w /\
    static_object w1 = Some (a, c1) /\
    shader_layout_cache (shader_ c1) !! sig = Some dsl /\
    pipeline_layout_cache (pipeline_ c1) !! dsl = Some (po_layout pipe) /\
    shader_cache (shader_ c1) !! sd = Some sm /\
    pipeline_cache (pipeline_ c1) !! (po_layout pipe, sm, wg_key lwg)
      = Some (po_handle pipe).
Proof.
  intros Hs Hd Hfail.
  assert (Hd0 : forall w', driver w' = driver w -> forall call,
               call <> NcAllocateDescriptorSets ->
               vkNative (driver w') call = VK_SUCCESS)
    by (intros w' E call Hne; rewrite E; apply Hd; exact Hne).
  destruct (Cache_retrieve_ok ShaderLayoutCache NcCreateDescriptorSetLayout
              (fun c => shader_layout_cache (shader_ c)) set_shader_layout_cache
              a c sig w Hs (Hd NcCreateDescriptorSetLayout ltac:(discriminate)))
    as (dsl & w1 & ev1 & c1 & E1 & (Fd1 & Ft1 & Fb1 & Fn1) & L1 & R1 & S1 & C1).
  destruct (Cache_retrieve_ok PipelineLayoutCache NcCreatePipelineLayout
              (fun c => pipeline_layout_cache (pipeline_ c))
              set_pipeline_layout_cache a c1 dsl w1 S1
              (Hd0 w1 Fd1 NcCreatePipelineLayout ltac:(discriminate)))
    as (pl & w2 & ev2 & c2 & E2 & (Fd2 & Ft2 & Fb2 & Fn2) & L2 & R2 & S2 & C2).
  rewrite Fd1 in Fd2.
  destruct (Cache_retrieve_ok ShaderCache NcCreateShaderModule
              (fun c => shader_cache (shader_ c)) set_shader_cache
              a c2 sd w2 S2 (Hd0 w2 Fd2 NcCreateShaderModule ltac:(discriminate)))
    as (sm & w3 & ev3 & c3 & E3 & (Fd3 & Ft3 & Fb3 & Fn3) & L3 & R3 & S3 & C3).
  rewrite Fd2 in Fd3.
  destruct (Cache_retrieve_ok PipelineCache NcCreateComputePipelines
              (fun c => pipeline_cache (pipeline_ c)) set_pipeline_cache
              a c3 (pl, sm, wg_key lwg) w3 S3
              (Hd0 w3 Fd3 NcCreateComputePipelines ltac:(discriminate)))
    as (ph & w4 & ev4 & c4 & E4 & (Fd4 & Ft4 & Fb4 & Fn4) & L4 & R4 & S4 & C4).
  rewrite Fd3 in Fd4.
  apply Z.eqb_neq in Hfail.
  set (pipe := {| po_handle := ph; po_layout := pl; po_local_work_group := lwg |}).
  exists pipe. eexists. exists c4, dsl, sm.
  split.
  { apply static_object_Some in Hs.
    rewrite (dispatch_prologue_context _ _ _ _ _ _ _ _
               (context_initialised w a c Hs)).
    unfold prologue_body, shader_layout_cache_retrieve,
      pipeline_layout_cache_retrieve, shader_cache_retrieve,
      pipeline_cache_retrieve, Buffer_bind_pipeline, record,
      DescriptorPool_allocate, native, fresh_handle, VK_CHECK.
    run_m. rewrite E1. simpl. rewrite E2. rewrite E3.
    unfold pd_key. simpl. rewrite E4. simpl. rewrite Fd4, Hfail. simpl.
    reflexivity. }
  simpl.
  assert (K1 : shader_layout_cache (shader_ c1) !! sig = Some dsl).
  { destruct C1 as [[-> Hk] | ->]; [exact Hk | simpl; apply lookup_insert_eq]. }
  assert (K2 : pipeline_layout_cache (pipeline_ c2) !! dsl = Some pl /\
               shader_layout_cache (shader_ c2) !! sig = Some dsl).
  { destruct C2 as [[-> Hk] | ->]; [auto | simpl].
    split; [apply lookup_insert_eq | exact K1]. }
  assert (K3 : shader_cache (shader_ c3) !! sd = Some sm /\
               pipeline_layout_cache (pipeline_ c3) !! dsl = Some pl /\
               shader_layout_cache (shader_ c3) !! sig = Some dsl).
  { destruct K2 as [K2 K2'].
    destruct C3 as [[-> Hk] | ->]; [auto | simpl].
    split; [apply lookup_insert_eq | auto]. }
  assert (K4 : pipeline_cache (pipeline_ c4) !! (pl, sm, wg_key lwg) = Some ph /\
               shader_cache (shader_ c4) !! sd = Some sm /\
               pipeline_layout_cache (pipeline_ c4) !! dsl = Some pl /\
               shader_layout_cache (shader_ c4) !! sig = Some dsl).
  { destruct K3 as (K3 & K3' & K3'').
    destruct C4 as [[-> Hk] | ->]; [auto | simpl].
    split; [apply lookup_insert_eq | auto]. }
  destruct K4 as (K4 & K4a & K4b & K4c).
  split.
  { apply recorded_app. unfold buffer_contents. simpl.
    rewrite lookup_insert_eq. simpl. rewrite Fb4, Fb3, Fb2, Fb1. reflexivity. }
  split; [reflexivity |].
  split; [rewrite Ft4, Ft3, Ft2, Ft1; reflexivity |].
  repeat (split; [assumption |]). assumption.
Qed.

Lemma prologue_allocation_failure_leaves_the_pipeline_bound_witness :
  exists pipe,
    fst (dispatch_prologue 1 30%N [7%N; 7%N] 99%N (wg 4 4 1)
           (snd (context (boot no_descriptor_set_driver good_adapter))))
      = Throw (VkCheckFailed VK_ERROR_OUT_OF_HOST_MEMORY) /\
    recorded (snd (context (boot no_descriptor_set_driver good_adapter)))
      (snd (dispatch_prologue 1 30%N [7%N; 7%N] 99%N (wg 4 4 1)
              (snd (context (boot no_descriptor_set_driver good_adapter)))))
      30%N = [CmdBindPipeline pipe] /\
    po_local_work_group pipe = wg 4 4 1.
Proof.
  assert (Hd : forall call, call <> NcAllocateDescriptorSets ->
             vkNative (driver (snd (context (boot no_descriptor_set_driver
                                              good_adapter)))) call = VK_SUCCESS).
  { intros call Hne. destruct call; try reflexivity. contradiction. }
  assert (Hf : vkNative (driver (snd (context (boot no_descriptor_set_driver
                                                 good_adapter))))
                 NcAllocateDescriptorSets <> VK_SUCCESS) by discriminate.
  destruct (prologue_allocation_failure_leaves_the_pipeline_bound
              1 30%N [7%N; 7%N] 99%N (wg 4 4 1) _ _
              (snd (context (boot no_descriptor_set_driver good_adapter)))
              eq_refl Hd Hf)
    as (pipe & w1 & c1 & dsl & sm & E & Hr & Hl & _).
  exists pipe. rewrite E. cbn [fst snd]. auto.
Defined.

Lemma dispatch_job_ok (t : nat) (cb : N) (j : Job) (w : World) (p : N) (w0 : World) :
  context w = (Ok p, w0) ->
  p <> nullptr ->
  (forall call, vkNative (driver w) call = VK_SUCCESS) ->
  exists w2 cmds a c2,
    dispatch_job t cb j w = (Ok tt, w2) /\
    job_commands j cmds /\
    buffer_contents w2 cb = buffer_contents w cb ++ cmds /\
    length (descriptor_pool (pools_of w2 t))
      = S (length (descriptor_pool (pools_of w t))) /\
    context_static w2 = Some (Some (a, c2)) /\
    driver w2 = driver w.
Proof.
  intros Hc Hp Hd.
  destruct (dispatch_prologue_ok t cb (job_signature j) (job_shader j)
              (job_local j) w p w0 Hc Hp Hd)
    as (set & pipe & w1 & a & c1 & dsl & sm & evs & E & _ & _ & _ & S1 & _ & _
        & _ & _ & Hl & Hb & Ht & Hsig & _).
  destruct (dispatch_epilogue_ok cb (bind_resources set (job_bindings j))
              (job_global j) w1) as (w2 & E2 & Hb2 & _ & _ & Ht2 & Hs2).
  exists w2,
    [CmdBindPipeline pipe; CmdBindDescriptorSet (bind_resources set (job_bindings j));
     CmdDispatch (job_global j)], a, c1.
  split.
  { unfold dispatch_job. run_m. rewrite E. exact E2. }
  split.
  { exists pipe, (bind_resources set (job_bindings j)). auto. }
  split.
  { rewrite Hb2, (buffer_contents_insert _ _ _ cb _ Hb).
    destruct (decide (cb = cb)); [| contradiction].
    rewrite <- app_assoc. reflexivity. }
  split.
  { unfold pools_of at 1. rewrite Ht2, Ht, lookup_insert_eq. reflexivity. }
  split.
  { rewrite Hs2. apply static_object_Some. exact S1. }
  pose proof (env_dispatch_prologue t cb (job_signature j) (job_shader j)
                (job_local j) w) as He1.
  pose proof (env_dispatch_epilogue cb (bind_resources set (job_bindings j))
                (job_global j) w1) as He2.
  rewrite E in He1. rewrite E2 in He2. unfold env in *. simpl in *. congruence.
Qed.

Lemma dispatch_jobs_ok (t : nat) (cb : N) (js : list Job) :
  forall (w : World) (p : N) (w0 : World),
    context w = (Ok p, w0) ->
    p <> nullptr ->
    (forall call, vkNative (driver w) call = VK_SUCCESS) ->
    exists w' groups,
      dispatch_jobs t cb js w = (Ok tt, w') /\
      Forall2 job_commands js groups /\
      buffer_contents w' cb = buffer_contents w cb ++ concat groups /\
      length (descriptor_pool (pools_of w' t))
        = (length js + length (descriptor_pool (pools_of w t)))%nat.
Proof.
  induction js as [| j js IH]; intros w p w0 Hc Hp Hd.
  - exists w, []. simpl. rewrite app_nil_r. repeat split. constructor.
  - destruct (dispatch_job_ok t cb j w p w0 Hc Hp Hd)
      as (w2 & cmds & a & c2 & E & Hj & Hb & Hn & Hs & Hdr).
    assert (Hc2 : context w2 = (Ok (ptr_of_addr a), w2))
      by (apply (context_initialised w2 a c2 Hs)).
    assert (Hp2 : ptr_of_addr a <> nullptr) by discriminate.
    assert (Hd2 : forall call, vkNative (driver w2) call = VK_SUCCESS)
      by (intros; rewrite Hdr; apply Hd).
    destruct (IH w2 _ _ Hc2 Hp2 Hd2) as (w' & groups & E' & Hg & Hb' & Hn').
    exists w', (cmds :: groups).
    split; [simpl; run_m; rewrite E; exact E' |].
    split; [constructor; assumption |].
    split; [rewrite Hb', Hb; simpl; rewrite <- app_assoc; reflexivity |].
    rewrite Hn', Hn. simpl. lia.
Qed.

Lemma job_commands_dispatches (js : list Job) (groups : list (list Cmd)) :
  Forall2 job_commands js groups ->
  List.filter is_dispatch (concat groups)
    = map (fun j => CmdDispatch (job_global j)) js /\
  length (concat groups) = (3 * length js)%nat.
Proof.
  induction 1 as [| j cmds js groups Hj _ IH]; [split; reflexivity |].
  destruct Hj as (pipe & set & -> & _). destruct IH as [IH1 IH2].
  simpl. rewrite IH1, IH2. split; [reflexivity | lia].
Qed.

(** X16. Jobs dispatched one after another on a thread, each by the
    protocol of prologue, bindings, epilogue, all return when the context
    is available and the driver succeeds, and fill the command stream in
    order: three commands per job, the binding of a pipeline with the
    job's local work-group size, the binding of the set carrying the
    job's bindings, and the dispatch of its global work-group shape.
    The stream thus holds exactly one dispatch per job, in submission
    order, and the thread's descriptor pool has grown by one set per
    job. *)
Theorem jobs_are_recorded_in_submission_order
    (t : nat) (cb : N) (js : list Job) (w : World) (p : N) (w0 : World) :
  context w = (Ok p, w0) ->
  p <> nullptr ->
  (forall call, vkNative (driver w) call = VK_SUCCESS) ->
  exists w' groups,
    dispatch_jobs t cb js w = (Ok tt, w') /\
    Forall2 job_commands js groups /\
    recorded w w' cb = concat groups /\
    List.filter is_dispatch (recorded w w' cb)
      = map (fun j => CmdDispatch (job_global j)) js /\
    length (recorded w w' cb) = (3 * length js)%nat /\
    length (descriptor_pool (pools_of w' t))
      = (length js + length (descriptor_pool (pools_of w t)))%nat.
Proof.
  intros Hc Hp Hd.
  destruct (dispatch_jobs_ok t cb js w p w0 Hc Hp Hd)
    as (w' & groups & E & Hg & Hb & Hn).
  destruct (job_commands_dispatches js groups Hg) as [Hf Hlen].
  exists w', groups.
  rewrite (recorded_app w w' cb (concat groups) Hb). auto 10.
Qed.

Lemma jobs_are_recorded_in_submission_order_witness :
  List.filter is_dispatch
    (recorded busy_world
       (snd (dispatch_jobs 1 30%N
               [sample_job (wg 64 1 1); sample_job (wg 8 8 1)] busy_world)) 30%N)
  = [CmdDispatch (wg 64 1 1); CmdDispatch (wg 8 8 1)].
Proof.
  assert (Hp : 5%N <> nullptr) by discriminate.
  assert (Hd : forall call, vkNative (driver busy_world) call = VK_SUCCESS)
    by reflexivity.
  destruct (jobs_are_recorded_in_submission_order 1 30%N
              [sample_job (wg 64 1 1); sample_job (wg 8 8 1)]
              busy_world 5%N busy_world eq_refl Hp Hd)
    as (w' & groups & E & _ & _ & Hf & _).
  rewrite E. cbn [snd]. exact Hf.
Defined.

(** ** Pools across threads and across flushes *)

Lemma flush_other_thread (self : Context) (t u : nat) (w : World) :
  u <> t -> tls (snd (Context_flush self u w)) !! t = tls w !! t.
Proof.
  intros Hne.
  destruct (Z.eq_dec (vkQueueWaitIdle (driver w) (queue_ self)) VK_SUCCESS)
    as [Hs | Hf].
  - destruct (flush_success self u w Hs) as (_ & _ & _ & Ht).
    rewrite Ht. apply lookup_insert_ne. exact Hne.
  - destruct (flush_failure self u w Hf) as (_ & _ & Ht & _).
    rewrite Ht. reflexivity.
Qed.

(** X17. A descriptor set handed out by the prologue lives in the pool of
    the thread that asked for it: a flush from any other thread, whatever
    its outcome, leaves it there, while a successful flush from its own
    thread empties that pool, the set included. *)
Theorem descriptor_set_lives_until_its_thread_flushes
    (t : nat) (cb : N) (sig : list N) (sd : N) (lwg : WorkGroup)
    (w : World) (p : N) (w0 : World) :
  context w = (Ok p, w0) ->
  p <> nullptr ->
  (forall call, vkNative (driver w) call = VK_SUCCESS) ->
  exists set w1,
    dispatch_prologue t cb sig sd lwg w = (Ok set, w1) /\
    set ∈ descriptor_pool (pools_of w1 t) /\
    (forall self u, u <> t ->
       set ∈ descriptor_pool (pools_of (snd (Context_flush self u w1)) t)) /\
    (forall self, fst (Context_flush self t w1) = Ok tt ->
       descriptor_pool (pools_of (snd (Context_flush self t w1)) t) = []).
Proof.
  intros Hc Hp Hd.
  destruct (dispatch_prologue_ok t cb sig sd lwg w p w0 Hc Hp Hd)
    as (set & pipe & w1 & a & c1 & dsl & sm & evs & E & _ & _ & _ & _ & _ & _
        & _ & _ & _ & _ & Ht & _).
  assert (Hin : set ∈ descriptor_pool (pools_of w1 t)).
  { unfold pools_of. rewrite Ht, lookup_insert_eq. simpl. apply list_elem_of_here. }
  exists set, w1. split; [exact E | split; [exact Hin | split]].
  - intros self u Hne. unfold pools_of.
    rewrite (flush_other_thread self t u w1 Hne). exact Hin.
  - intros self Hok.
    destruct (Z.eq_dec (vkQueueWaitIdle (driver w1) (queue_ self)) VK_SUCCESS)
      as [Hs | Hf];
      [| destruct (flush_failure self t w1 Hf) as (Hr & _); congruence].
    destruct (flush_success self t w1 Hs) as (_ & _ & _ & Ht1).
    unfold pools_of. rewrite Ht1, lookup_insert_eq. reflexivity.
Qed.

Lemma descriptor_set_lives_until_its_thread_flushes_witness :
  exists set,
    fst (dispatch_prologue 1 30%N [7%N; 7%N] 99%N (wg 4 4 1) busy_world) = Ok set /\
    set ∈ descriptor_pool
            (pools_of (snd (Context_flush sample_context 2
                              (snd (dispatch_prologue 1 30%N [7%N; 7%N] 99%N
                                      (wg 4 4 1) busy_world)))) 1).
Proof.
  assert (Hp : 5%N <> nullptr) by discriminate.
  assert (Hd : forall call, vkNative (driver busy_world) call = VK_SUCCESS)
    by reflexivity.
  assert (Hne : 2%nat <> 1%nat) by lia.
  destruct (descriptor_set_lives_until_its_thread_flushes 1 30%N [7%N; 7%N] 99%N
              (wg 4 4 1) busy_world 5%N busy_world eq_refl Hp Hd)
    as (set & w1 & E & _ & Hother & _).
  exists set. rewrite E. cbn [fst snd].
  split; [reflexivity | apply Hother; exact Hne].
Defined.

(** X18. A successful flush closes the calling thread's command stream:
    whether or not a stream was open before, the first [wait] on a
    device-resident tensor after the flush has to open a new one, so it
    asks the driver for a command buffer, and raises if the driver
    refuses. *)
Theorem wait_after_flush_opens_a_new_stream
    (self : Context) (t : nat) (src : Tensor) (w : World) :
  tensor_device_type src = kVulkan ->
  fst (Context_flush self t w) = Ok tt ->
  command_stream (pools_of (snd (Context_flush self t w)) t) = None /\
  natives (new_events (snd (Context_flush self t w))
             (snd (Context_wait self t src (snd (Context_flush self t w)))))
    = [NcAllocateCommandBuffers] /\
  (vkNative (driver w) NcAllocateCommandBuffers = VK_SUCCESS ->
     fst (Context_wait self t src (snd (Context_flush self t w))) = Ok tt) /\
  (vkNative (driver w) NcAllocateCommandBuffers <> VK_SUCCESS ->
     fst (Context_wait self t src (snd (Context_flush self t w)))
       = Throw (VkCheckFailed (vkNative (driver w) NcAllocateCommandBuffers))).
Proof.
  intros Hv Hok.
  destruct (Z.eq_dec (vkQueueWaitIdle (driver w) (queue_ self)) VK_SUCCESS)
    as [Hs | Hf];
    [| destruct (flush_failure self t w Hf) as (Hr & _); congruence].
  destruct (flush_success self t w Hs) as (_ & _ & _ & Ht).
  set (w1 := snd (Context_flush self t w)) in *.
  assert (Hd : driver w1 = driver w).
  { pose proof (env_Context_flush self t w) as E. unfold env in E.
    fold w1 in E. congruence. }
  assert (Hnone : command_stream (pools_of w1 t) = None).
  { unfold pools_of. rewrite Ht, lookup_insert_eq. reflexivity. }
  split; [exact Hnone |].
  rewrite <- Hd.
  destruct (Z.eq_dec (vkNative (driver w1) NcAllocateCommandBuffers) VK_SUCCESS)
    as [Ha | Ha].
  - destruct (stream_created t w1 Hnone Ha) as (Hr & Hl & Hc).
    assert (E : exists w2,
               Context_wait self t src w1 = (Ok tt, w2) /\
               log w2 = log w1 ++
                 [EvStream t; EvNative NcAllocateCommandBuffers VK_SUCCESS;
                  EvHostFuture (tensor_storage src) (N.succ (next_handle w1));
                  EvFutureWait (tensor_storage src) (N.succ (next_handle w1))]).
    { unfold Context_wait, vTensor_host, Future_wait. rewrite Hv. simpl. run_m.
      destruct (CommandPool_stream t w1) as [o w2] eqn:E. simpl in *. subst o.
      eexists. split; [reflexivity |]. simpl. rewrite Hl, <- !app_assoc.
      reflexivity. }
    destruct E as (w2 & E & Hl2). rewrite E. simpl.
    rewrite (new_events_app w1 w2 _ Hl2).
    split; [reflexivity | split; [reflexivity | contradiction]].
  - pose proof Ha as Hb. apply Z.eqb_neq in Hb.
    assert (E : Context_wait self t src w1 =
                (Throw (VkCheckFailed (vkNative (driver w1) NcAllocateCommandBuffers)),
                 set_log ((log w1 ++ [EvStream t]) ++
                            [EvNative NcAllocateCommandBuffers
                               (vkNative (driver w1) NcAllocateCommandBuffers)])
                   (set_log (log w1 ++ [EvStream t]) w1))).
    { unfold Context_wait, CommandPool_stream, native, VK_CHECK. rewrite Hv.
      run_m. simpl.
      change (pools_of (set_log (log w1 ++ [EvStream t]) w1) t)
        with (pools_of w1 t).
      rewrite Hnone. simpl. rewrite Hb. reflexivity. }
    rewrite E. simpl.
    split; [| split; [contradiction | reflexivity]].
    rewrite (new_events_app w1 _
               [EvStream t;
                EvNative NcAllocateCommandBuffers
                  (vkNative (driver w1) NcAllocateCommandBuffers)]).
    + reflexivity.
    + simpl. rewrite <- app_assoc. reflexivity.
Qed.

Lemma wait_after_flush_opens_a_new_stream_witness :
  command_stream (pools_of busy_world 1) = Some 12%N /\
  natives (new_events (snd (Context_flush sample_context 1 busy_world))
             (snd (Context_wait sample_context 1 vulkan_tensor
                     (snd (Context_flush sample_context 1 busy_world)))))
    = [NcAllocateCommandBuffers].
Proof.
  destruct (wait_after_flush_opens_a_new_stream sample_context 1 vulkan_tensor
              busy_world eq_refl eq_refl) as (_ & H & _).
  split; [reflexivity | exact H].
Defined.

Lemma wait_never_purges_nor_idles_witness :
  purges (log (snd (Context_wait sample_context 1 vulkan_tensor busy_world))) = [] /\
  tls (snd (Context_wait sample_context 1 vulkan_tensor busy_world)) !! 2%nat
    = tls busy_world !! 2%nat.
Proof.
  assert (Hne : 2%nat <> 1%nat) by lia.
  destruct (wait_never_purges_nor_idles sample_context 1 vulkan_tensor busy_world)
    as (Hp & _ & _ & _ & Ht).
  split; [exact Hp | exact (Ht 2%nat Hne)].
Defined.
